(** * SoM-Flasher: the firmware flash monitor

    A shallow embedding of [SoM_Flash_Monitor.py]: the serial worker thread
    ([Worker.run]) and the window's handlers ([MainWindow.add_boards],
    [update_progress], [update_time], [handle_flashed], ...), with the
    properties of the monitoring session stated and proved over them. *)

From Stdlib Require Import ZArith NArith QArith Qround Lia Bool.
From Stdlib.Strings Require Import String Ascii Byte.
From Stdlib Require Import DecimalString.
From stdpp Require Import base option list.

Close Scope Q_scope.
Local Open Scope Z_scope.

(** ** Python text

    A Python [str] is a sequence of code points.  Literals of the source are
    ASCII and are written as Rocq strings through [py]. *)

Definition str := list N.

Definition py (s : string) : str := map N_of_ascii (list_ascii_of_string s).

Definition in_range (lo hi c : N) : bool := ((lo <=? c) && (c <=? hi))%N.

(** [str.isspace] on one code point: the Unicode white space characters. *)
Definition isspace (c : N) : bool :=
  in_range 0x09 0x0D c || in_range 0x1C 0x20 c
  || (c =? 0x85)%N || (c =? 0xA0)%N || (c =? 0x1680)%N
  || in_range 0x2000 0x200A c
  || (c =? 0x2028)%N || (c =? 0x2029)%N || (c =? 0x202F)%N
  || (c =? 0x205F)%N || (c =? 0x3000)%N.

Fixpoint lstrip (s : str) : str :=
  match s with
  | [] => []
  | c :: s' => if isspace c then lstrip s' else s
  end.

Definition rstrip (s : str) : str := rev (lstrip (rev s)).

(** [s.strip()] *)
Definition strip (s : str) : str := rstrip (lstrip s).

Fixpoint startswith (s prefix : str) : bool :=
  match prefix, s with
  | [], _ => true
  | p :: prefix', c :: s' => (p =? c)%N && startswith s' prefix'
  | _ :: _, [] => false
  end.

(** [sub in s] *)
Fixpoint contains (sub s : str) : bool :=
  startswith s sub ||
  match s with
  | [] => false
  | _ :: s' => contains sub s'
  end.

(** ** [bytes.decode('utf-8', errors=...)]

    The decoder follows the table of well-formed UTF-8 byte sequences.  With
    [strict] an ill-formed sequence raises [UnicodeDecodeError]; with
    [ignore] the offending bytes are dropped and decoding resumes. *)

Inductive errors_mode := strict | ignore.

Inductive UnicodeDecodeError :=
| invalid_start_byte
| invalid_continuation_byte
| unexpected_end_of_data.

(** [str(e)], without the position. *)
Definition describe (e : UnicodeDecodeError) : str :=
  match e with
  | invalid_start_byte => py "invalid start byte"
  | invalid_continuation_byte => py "invalid continuation byte"
  | unexpected_end_of_data => py "unexpected end of data"
  end.

Definition is_continuation (b : N) : bool := in_range 0x80 0xBF b.

(** Number of bytes announced by a lead byte; [None] for a byte that cannot
    start a sequence (continuation bytes, C0, C1, F5..FF). *)
Definition sequence_length (b0 : N) : option nat :=
  if (b0 <? 0x80)%N then Some 1%nat
  else if in_range 0xC2 0xDF b0 then Some 2%nat
  else if in_range 0xE0 0xEF b0 then Some 3%nat
  else if in_range 0xF0 0xF4 b0 then Some 4%nat
  else None.

(** The second byte is restricted further after E0, ED, F0 and F4 (no
    overlong forms, no surrogates, nothing above U+10FFFF). *)
Definition second_byte_ok (b0 b1 : N) : bool :=
  if (b0 =? 0xE0)%N then in_range 0xA0 0xBF b1
  else if (b0 =? 0xED)%N then in_range 0x80 0x9F b1
  else if (b0 =? 0xF0)%N then in_range 0x90 0xBF b1
  else if (b0 =? 0xF4)%N then in_range 0x80 0x8F b1
  else is_continuation b1.

Definition low6 (b : N) : N := N.land b 0x3F.

Definition code_point2 (b0 b1 : N) : N :=
  N.lor (N.shiftl (N.land b0 0x1F) 6) (low6 b1).

Definition code_point3 (b0 b1 b2 : N) : N :=
  N.lor (N.shiftl (N.land b0 0x0F) 12)
        (N.lor (N.shiftl (low6 b1) 6) (low6 b2)).

Definition code_point4 (b0 b1 b2 b3 : N) : N :=
  N.lor (N.shiftl (N.land b0 0x07) 18)
        (N.lor (N.shiftl (low6 b1) 12)
               (N.lor (N.shiftl (low6 b2) 6) (low6 b3))).

(** What the error handler does: [strict] raises, [ignore] resumes. *)
Definition on_error (errors : errors_mode) (e : UnicodeDecodeError)
    (resume : str + UnicodeDecodeError) : str + UnicodeDecodeError :=
  match errors with
  | strict => inr e
  | ignore => resume
  end.

Definition emit_char (c : N) (rest : str + UnicodeDecodeError)
    : str + UnicodeDecodeError :=
  match rest with
  | inl s => inl (c :: s)
  | inr e => inr e
  end.

Fixpoint utf8_decode (errors : errors_mode) (bs : list N) {struct bs}
    : str + UnicodeDecodeError :=
  match bs with
  | [] => inl []
  | b0 :: r0 =>
    match sequence_length b0 with
    | None => on_error errors invalid_start_byte (utf8_decode errors r0)
    | Some 1%nat => emit_char b0 (utf8_decode errors r0)
    | Some n =>
      match r0 with
      | [] => on_error errors unexpected_end_of_data (inl [])
      | b1 :: r1 =>
        if negb (second_byte_ok b0 b1) then
          on_error errors invalid_continuation_byte (utf8_decode errors r0)
        else if (n =? 2)%nat then
          emit_char (code_point2 b0 b1) (utf8_decode errors r1)
        else
          match r1 with
          | [] => on_error errors unexpected_end_of_data (inl [])
          | b2 :: r2 =>
            if negb (is_continuation b2) then
              on_error errors invalid_continuation_byte (utf8_decode errors r1)
            else if (n =? 3)%nat then
              emit_char (code_point3 b0 b1 b2) (utf8_decode errors r2)
            else
              match r2 with
              | [] => on_error errors unexpected_end_of_data (inl [])
              | b3 :: r3 =>
                if negb (is_continuation b3) then
                  on_error errors invalid_continuation_byte
                           (utf8_decode errors r2)
                else
                  emit_char (code_point4 b0 b1 b2 b3) (utf8_decode errors r3)
              end
          end
      end
    end
  end.

(** [bs.decode('utf-8', errors=errors)] on the bytes read from the port. *)
Definition decode (errors : errors_mode) (bs : list byte)
    : str + UnicodeDecodeError :=
  utf8_decode errors (map Byte.to_N bs).

Definition bytes_of (s : string) : list byte := list_byte_of_string s.

(** ** The worker thread ([class Worker(QThread)]) *)

(** The signals a worker sends to the window, with their payloads. *)
Inductive signal :=
| log_signal (board_id : nat) (message : str)
| error_signal (board_id : nat) (message : str)
| flashed_signal (board_id : nat)
| first_transmission_signal (board_id : nat).

Record Worker := {
  port : string;
  baudrate : Z;
  board_id : nat;
  running : bool;
  first_transmission_received : bool
}.

(** [Worker.__init__] *)
Definition new_Worker (port : string) (baudrate : Z) (board_id : nat) : Worker :=
  {| port := port; baudrate := baudrate; board_id := board_id;
     running := true; first_transmission_received := false |}.

(** [Worker.stop] *)
Definition stop (self : Worker) : Worker :=
  {| port := port self; baudrate := baudrate self; board_id := board_id self;
     running := false;
     first_transmission_received := first_transmission_received self |}.

Definition set_first_transmission_received (self : Worker) : Worker :=
  {| port := port self; baudrate := baudrate self; board_id := board_id self;
     running := running self;
     first_transmission_received := true |}.

(** The literal tested on every line. *)
Definition marker : str := py "Span Gateway 2.0.0 span-gateway".

(** *** The serial port, as the worker meets it

    [serial.Serial(...)] either returns a handle or raises
    [SerialException].  After that, each turn of the [while] loop meets one
    of: [stop] was called from the window's thread, so the loop test reads
    [running = False]; [ser.in_waiting] raises; nothing is waiting;
    [ser.readline()] raises; [ser.readline()] returns bytes. *)

Inductive turn :=
| stop_called
| in_waiting_raises (e : str)
| nothing_waiting
| readline_raises (e : str)
| readline_returns (bs : list byte).

Record device := {
  open_raises : option str;   (* [Some e]: the port cannot be opened *)
  turns : list turn
}.

Record Serial := {
  is_open : bool;
  close_calls : nat
}.

Definition opened : Serial := {| is_open := true; close_calls := 0 |}.

(** [ser.close()] *)
Definition close (ser : Serial) : Serial :=
  {| is_open := false; close_calls := S (close_calls ser) |}.

(** How the [while] loop is left, if it is. *)
Inductive loop_exit :=
| still_looping                      (* the turns seen so far did not end it *)
| loop_finished                      (* [self.running] was read as False *)
| loop_raised (e : str).             (* [serial.SerialException] *)

Definition emitting (s : signal) (r : loop_exit * Worker * list signal)
    : loop_exit * Worker * list signal :=
  let '(x, w, sigs) := r in (x, w, s :: sigs).

(** The body of [while self.running: ...], one turn of the port at a time. *)
Fixpoint loop (self : Worker) (ts : list turn) {struct ts}
    : loop_exit * Worker * list signal :=
  if negb (running self) then (loop_finished, self, [])
  else
    match ts with
    | [] => (still_looping, self, [])
    | stop_called :: ts' => loop (stop self) ts'
    | in_waiting_raises e :: _ => (loop_raised e, self, [])
    | nothing_waiting :: ts' => loop self ts'            (* msleep(100) *)
    | readline_raises e :: _ => (loop_raised e, self, [])
    | readline_returns bs :: ts' =>
      match decode ignore bs with
      | inr e =>
        (* except UnicodeDecodeError: emit the error and [continue] *)
        emitting (error_signal (board_id self)
                               (py "Decoding error: " ++ describe e))
                 (loop self ts')
      | inl text =>
        let data := strip text in
        let announce := negb (first_transmission_received self) in
        let self' :=
          if announce then set_first_transmission_received self else self in
        let rest := loop self' ts' in
        let rest :=
          if contains marker data
          then emitting (flashed_signal (board_id self)) rest
          else rest in
        let rest := emitting (log_signal (board_id self) data) rest in
        if announce
        then emitting (first_transmission_signal (board_id self)) rest
        else rest
      end
    end.

(** Exceptions that leave [run]. *)
Inductive exception := UnboundLocalError.

Inductive completion :=
| in_loop                  (* the thread is still inside the [while] loop *)
| returned                 (* [run] returned *)
| raised (e : exception).  (* an exception left [run] *)

Record run_result := {
  signals : list signal;
  worker_after : Worker;
  ser : option Serial;      (* the local [ser]; [None] while unbound *)
  outcome : completion
}.

(** The [finally] block: [if ser.is_open: ser.close()].  Reading an unbound
    local raises [UnboundLocalError]. *)
Definition finally (ser : option Serial) : option Serial * completion :=
  match ser with
  | None => (None, raised UnboundLocalError)
  | Some s => (Some (if is_open s then close s else s), returned)
  end.

(** [Worker.run] *)
Definition run (self : Worker) (dev : device) : run_result :=
  match open_raises dev with
  | Some e =>
    (* [ser] was never bound; the handler runs, then [finally] *)
    let '(ser', out) := finally None in
    {| signals := [error_signal (board_id self) (py "Serial port error: " ++ e)];
       worker_after := self; ser := ser'; outcome := out |}
  | None =>
    let ser := Some opened in
    match loop self (turns dev) with
    | (still_looping, w, sigs) =>
      {| signals := sigs; worker_after := w; ser := ser; outcome := in_loop |}
    | (loop_finished, w, sigs) =>
      let '(ser', out) := finally ser in
      {| signals := sigs; worker_after := w; ser := ser'; outcome := out |}
    | (loop_raised e, w, sigs) =>
      let '(ser', out) := finally ser in
      {| signals :=
           sigs ++ [error_signal (board_id self) (py "Serial port error: " ++ e)];
         worker_after := w; ser := ser'; outcome := out |}
    end
  end.

Definition is_flashed (s : signal) : bool :=
  match s with flashed_signal _ => true | _ => false end.

Definition is_first_transmission (s : signal) : bool :=
  match s with first_transmission_signal _ => true | _ => false end.

Definition is_log (s : signal) : bool :=
  match s with log_signal _ _ => true | _ => false end.

Definition is_decoding_error (s : signal) : bool :=
  match s with
  | error_signal _ m => startswith m (py "Decoding error: ")
  | _ => false
  end.

Definition is_marker_log (s : signal) : bool :=
  match s with log_signal _ m => contains marker m | _ => false end.

Definition count (p : signal -> bool) (sigs : list signal) : nat :=
  length (filter (fun s => p s = true) sigs).

(** The text of the lines logged, in order. *)
Definition logged (sigs : list signal) : list str :=
  omap (fun s => match s with log_signal _ m => Some m | _ => None end) sigs.

(** ** The window ([class MainWindow(QMainWindow)]) *)

(** *** The widgets and timers it keeps *)

Record QProgressBar := {
  minimum : Z;
  maximum : Z;
  value : Z
}.

(** [bar.setValue(v)]: a value outside the range has no effect. *)
Definition setValue (v : Z) (bar : QProgressBar) : QProgressBar :=
  if (v <? minimum bar) || (maximum bar <? v) then bar
  else {| minimum := minimum bar; maximum := maximum bar; value := v |}.

Record QTimer := {
  interval : Z;          (* milliseconds *)
  active : bool
}.

(** [timer.start(msec)] and [timer.stop()] *)
Definition timer_started (msec : Z) : QTimer :=
  {| interval := msec; active := true |}.

Definition timer_stop (t : QTimer) : QTimer :=
  {| interval := interval t; active := false |}.

Inductive QElapsedTimer := elapsed_timer_started.

(** *** Python numbers in [update_progress] and [update_time] *)

(** [int(x)]: truncation toward zero. *)
Definition int (x : Q) : Z := Z.quot (Qnum x) (Zpos (Qden x)).

(** [value + 100 / 77].  The source computes it in binary floating point;
    for the integers a progress bar holds the sum lies strictly between two
    integers, at a distance far above the rounding error, so its truncation
    is that of the exact sum. *)
Definition add_increment (value : Z) : Q := (inject_Z value + 100 / 77)%Q.

(** [str.zfill]: pad with zeros on the left up to [width]. *)
Definition zfill (width : nat) (digits : string) : string :=
  String.concat "" (repeat "0"%string (width - String.length digits))
  ++ digits.

(** [f"{n:0w}"] for an integer [n]: decimal digits, zero-padded to [width],
    the sign (if any) before the padding. *)
Definition format_int (width : nat) (n : Z) : string :=
  let digits := NilZero.string_of_uint (N.to_uint (Z.abs_N n)) in
  if n <? 0 then ("-" ++ zfill (width - 1) digits)%string
  else zfill width digits.

(** The text computed by [update_time] from the elapsed milliseconds. *)
Definition current_time (elapsed : Z) : string :=
  let milliseconds := elapsed mod 1000 in
  let seconds := (elapsed / 1000) mod 60 in
  let minutes := (elapsed / 60000) mod 60 in
  let hours := (elapsed / 3600000) mod 24 in
  (format_int 2 hours ++ ":" ++ format_int 2 minutes ++ ":"
   ++ format_int 2 seconds ++ "." ++ format_int 3 milliseconds)%string.

(** *** The window state: lists indexed by board id *)

Record MainWindow := {
  workers : list Worker;
  progress_bars : list QProgressBar;
  text_logs : list (list str);
  timers : list QTimer;
  time_labels : list string;
  elapsed_timers : list (option QElapsedTimer);
  progress_timers : list (option QTimer);
  time_timers : list (option QTimer)
}.

(** [MainWindow.__init__] *)
Definition new_MainWindow : MainWindow :=
  {| workers := []; progress_bars := []; text_logs := []; timers := [];
     time_labels := []; elapsed_timers := []; progress_timers := [];
     time_timers := [] |}.

Definition with_workers (ws : list Worker) (self : MainWindow) : MainWindow :=
  {| workers := ws; progress_bars := progress_bars self;
     text_logs := text_logs self; timers := timers self;
     time_labels := time_labels self; elapsed_timers := elapsed_timers self;
     progress_timers := progress_timers self;
     time_timers := time_timers self |}.

Definition with_progress_bars (bars : list QProgressBar) (self : MainWindow)
    : MainWindow :=
  {| workers := workers self; progress_bars := bars;
     text_logs := text_logs self; timers := timers self;
     time_labels := time_labels self; elapsed_timers := elapsed_timers self;
     progress_timers := progress_timers self;
     time_timers := time_timers self |}.

Definition with_text_logs (logs : list (list str)) (self : MainWindow)
    : MainWindow :=
  {| workers := workers self; progress_bars := progress_bars self;
     text_logs := logs; timers := timers self;
     time_labels := time_labels self; elapsed_timers := elapsed_timers self;
     progress_timers := progress_timers self;
     time_timers := time_timers self |}.

Definition with_time_labels (labels : list string) (self : MainWindow)
    : MainWindow :=
  {| workers := workers self; progress_bars := progress_bars self;
     text_logs := text_logs self; timers := timers self;
     time_labels := labels; elapsed_timers := elapsed_timers self;
     progress_timers := progress_timers self;
     time_timers := time_timers self |}.

Definition with_progress_timers (ts : list (option QTimer)) (self : MainWindow)
    : MainWindow :=
  {| workers := workers self; progress_bars := progress_bars self;
     text_logs := text_logs self; timers := timers self;
     time_labels := time_labels self; elapsed_timers := elapsed_timers self;
     progress_timers := ts;
     time_timers := time_timers self |}.

(** [l[i] = x]: raises [IndexError] ([None]) when [i] is out of range. *)
Definition assign {A} (l : list A) (i : nat) (x : A) : option (list A) :=
  if decide (i < length l)%nat then Some (<[i:=x]> l) else None.

(** [logs[i].append(message)] *)
Definition append_log (logs : list (list str)) (i : nat) (message : str)
    : option (list (list str)) :=
  log ← logs !! i; Some (<[i:=log ++ [message]]> logs).

Section Window.

(** The value a progress bar reports between its creation and the first
    [setValue]: the toolkit's, not the program's. *)
Variable unset_value : Z.

(** [QProgressBar(self)] followed by [setRange(0, 100)] *)
Definition new_progress_bar : QProgressBar :=
  {| minimum := 0; maximum := 100; value := unset_value |}.

(** [MainWindow.add_board]: every list grows by one entry. *)
Definition add_board (self : MainWindow) (port : string) (baudrate : Z)
    (board_id : nat) : MainWindow :=
  {| workers := workers self ++ [new_Worker port baudrate board_id];
     progress_bars := progress_bars self ++ [new_progress_bar];
     text_logs := text_logs self ++ [[]];
     timers := timers self;
     time_labels := time_labels self ++ [""%string];
     elapsed_timers := elapsed_timers self ++ [None];
     progress_timers := progress_timers self ++ [None];
     time_timers := time_timers self ++ [None] |}.

(** [MainWindow.add_boards], given what [comports()] returned. *)
Definition add_boards (self : MainWindow) (ports : list string) : MainWindow :=
  foldl (fun self port =>
           let baudrate := 115200 in
           let board_id := length (workers self) in
           add_board self port baudrate board_id)
        self ports.

(** [MainWindow.start_timers] *)
Definition start_timers (self : MainWindow) (board_id : nat)
    : option MainWindow :=
  ets ← assign (elapsed_timers self) board_id (Some elapsed_timer_started);
  pts ← assign (progress_timers self) board_id (Some (timer_started 10000));
  tts ← assign (time_timers self) board_id (Some (timer_started 1));
  Some {| workers := workers self; progress_bars := progress_bars self;
          text_logs := text_logs self; timers := timers self;
          time_labels := time_labels self; elapsed_timers := ets;
          progress_timers := pts; time_timers := tts |}.

(** [MainWindow.update_progress], called by the board's progress timer with
    the board's bar, that timer and the board's worker. *)
Definition update_progress (self : MainWindow) (board_id : nat)
    : option MainWindow :=
  progress_bar ← progress_bars self !! board_id;
  timer ← mjoin (progress_timers self !! board_id);
  worker ← workers self !! board_id;
  let value := value progress_bar in
  if value <? 100 then
    let value := add_increment value in
    Some (with_progress_bars
            (<[board_id := setValue (int value) progress_bar]>
               (progress_bars self))
            self)
  else
    logs ← append_log (text_logs self) board_id
                      (py "This board is flashed successfully");
    Some (with_workers (<[board_id := stop worker]> (workers self))
         (with_text_logs logs
         (with_progress_bars
            (<[board_id := setValue 100 progress_bar]> (progress_bars self))
         (with_progress_timers
            (<[board_id := Some (timer_stop timer)]> (progress_timers self))
            self)))).

(** [MainWindow.update_log] *)
Definition update_log (self : MainWindow) (board_id : nat) (message : str)
    : option MainWindow :=
  logs ← append_log (text_logs self) board_id message;
  Some (with_text_logs logs self).

(** [MainWindow.update_time], given the reading of the elapsed timer. *)
Definition update_time (self : MainWindow) (board_id : nat) (elapsed : Z)
    : option MainWindow :=
  _ ← mjoin (elapsed_timers self !! board_id);
  labels ← (_ ← time_labels self !! board_id;
            Some (<[board_id := current_time elapsed]> (time_labels self)));
  Some (with_time_labels labels self).

(** [MainWindow.handle_error] (the message box is not modelled) *)
Definition handle_error (self : MainWindow) (board_id : nat)
    (error_message : str) : option MainWindow :=
  logs ← append_log (text_logs self) board_id (py "Error: " ++ error_message);
  Some (with_text_logs logs self).

(** [MainWindow.handle_flashed] (the dialog is not modelled) *)
Definition handle_flashed (self : MainWindow) (board_id : nat)
    : option MainWindow :=
  progress_bar ← progress_bars self !! board_id;
  logs ← append_log (text_logs self) board_id
                    (py "Firmware flashing completed");
  Some (with_text_logs logs
       (with_progress_bars
          (<[board_id := setValue 100 progress_bar]> (progress_bars self))
          self)).

(** [MainWindow.closeEvent]: every worker is stopped; [self.timers] is
    stopped too (the list the program never fills). *)
Definition closeEvent (self : MainWindow) : MainWindow :=
  {| workers := stop <$> workers self;
     progress_bars := progress_bars self;
     text_logs := text_logs self;
     timers := timer_stop <$> timers self;
     time_labels := time_labels self;
     elapsed_timers := elapsed_timers self;
     progress_timers := progress_timers self;
     time_timers := time_timers self |}.

(** *** What reaches the window's event loop *)

Inductive event :=
| add_button_clicked (ports : list string)
| signal_received (s : signal)
| progress_timeout (board_id : nat)
| time_timeout (board_id : nat) (elapsed : Z)
| window_closed.

Definition fires (ts : list (option QTimer)) (board_id : nat) : bool :=
  match ts !! board_id with
  | Some (Some t) => active t
  | _ => false
  end.

(** The slot connected to each signal and timer.  A timer that is not
    active delivers no timeout. *)
Definition handle (self : MainWindow) (ev : event) : option MainWindow :=
  match ev with
  | add_button_clicked ports => Some (add_boards self ports)
  | signal_received (log_signal b m) => update_log self b m
  | signal_received (error_signal b m) => handle_error self b m
  | signal_received (flashed_signal b) => handle_flashed self b
  | signal_received (first_transmission_signal b) => start_timers self b
  | progress_timeout b =>
    if fires (progress_timers self) b then update_progress self b
    else Some self
  | time_timeout b elapsed =>
    if fires (time_timers self) b then update_time self b elapsed
    else Some self
  | window_closed => Some (closeEvent self)
  end.

Fixpoint handle_all (self : MainWindow) (evs : list event)
    : option MainWindow :=
  match evs with
  | [] => Some self
  | ev :: evs' => self' ← handle self ev; handle_all self' evs'
  end.

(** The progress shown for a board, and the ids handed out so far. *)
Definition progress (self : MainWindow) (board_id : nat) : option Z :=
  value <$> progress_bars self !! board_id.

Definition board_ids (self : MainWindow) : list nat :=
  board_id <$> workers self.

End Window.

(** ** Vocabulary of the statements *)

(** The text the loop logs for a line read from the port. *)
Definition line_text (bs : list byte) : str :=
  match decode ignore bs with
  | inl text => strip text
  | inr _ => []
  end.

(** The lines the loop reads from a port: those returned by [readline]
    before the first stop request or exception. *)
Fixpoint lines_read (ts : list turn) : list (list byte) :=
  match ts with
  | readline_returns bs :: ts' => bs :: lines_read ts'
  | nothing_waiting :: ts' => lines_read ts'
  | _ => []
  end.

(** A port that opens and then delivers the given lines, undisturbed. *)
Definition feed (lines : list (list byte)) : device :=
  {| open_raises := None; turns := readline_returns <$> lines |}.

Definition sigs_of (r : loop_exit * Worker * list signal) : list signal := r.2.

(** The signals of one line, in the order the loop emits them. *)
Definition line_signals (self : Worker) (data : str) : list signal :=
  (if first_transmission_received self
   then [] else [first_transmission_signal (board_id self)])
  ++ log_signal (board_id self) data
  :: (if contains marker data then [flashed_signal (board_id self)] else []).

(** A bar as [add_board] sets it up, showing a percentage. *)
Definition in_range_bar (bar : QProgressBar) : Prop :=
  minimum bar = 0 ∧ maximum bar = 100 ∧ 0 ≤ value bar ≤ 100.

(** Board [b] shows [v] and its progress timer is running: the state in
    which the timer calls [update_progress]. *)
Definition ticking (self : MainWindow) (b : nat) (v : Z) : bool :=
  match progress_bars self !! b, progress_timers self !! b,
        workers self !! b, text_logs self !! b with
  | Some bar, Some (Some t), Some w, Some log =>
    (minimum bar =? 0) && (maximum bar =? 100) && (value bar =? v) && active t
  | _, _, _, _ => false
  end.

Definition serial_port_error (self : Worker) (e : str) : signal :=
  error_signal (board_id self) (py "Serial port error: " ++ e).

(** A concrete session, used where a statement is tried on an input. *)
Definition board0 : Worker := new_Worker "COM3" 115200 0.

Definition line (s : string) : list byte := bytes_of s ++ [x0a].

Definition two_banners : device :=
  feed [line "Starting kernel ...";
        line "Span Gateway 2.0.0 span-gateway ttymxc0";
        line "span-gateway login:";
        line "Span Gateway 2.0.0 span-gateway ttymxc0"].

(** A chunk that starts with a byte no UTF-8 sequence can contain. *)
Definition garbled : list byte := xff :: line "U-Boot 2020.04".

(** C1 as the specification words it: if a line read contains the marker,
    exactly one [flashed_signal] is emitted. *)
Definition flashed_exactly_once (self : Worker) (dev : device) : Prop :=
  (∃ m, m ∈ line_text <$> lines_read (turns dev) ∧ contains marker m = true) →
  count is_flashed (signals (run self dev)) = 1%nat.

(** Events of a bench session: two ports found, board 0 starts to talk. *)
Definition one_board : list event :=
  [add_button_clicked ["COM3"%string];
   signal_received (first_transmission_signal 0)].

Definition bench_events : list event :=
  [add_button_clicked ["COM3"%string; "COM4"%string];
   signal_received (first_transmission_signal 0);
   signal_received (log_signal 0 (py "U-Boot 2020.04"));
   progress_timeout 0; progress_timeout 0].

Definition later_events : list event :=
  [progress_timeout 0; signal_received (flashed_signal 0);
   progress_timeout 0; window_closed; add_button_clicked ["COM5"%string]].

(** The board a signal is about. *)
Definition signal_board (s : signal) : nat :=
  match s with
  | log_signal b _ | error_signal b _
  | flashed_signal b | first_transmission_signal b => b
  end.

Definition is_error (s : signal) : bool :=
  match s with error_signal _ _ => true | _ => false end.

(** A turn at which the loop is left: a stop request or an exception. *)
Definition ends_loop (t : turn) : bool :=
  match t with
  | stop_called | in_waiting_raises _ | readline_raises _ => true
  | nothing_waiting | readline_returns _ => false
  end.

(** The [SerialException] the loop runs into, if it does before a stop. *)
Fixpoint first_exception (ts : list turn) : option str :=
  match ts with
  | [] | stop_called :: _ => None
  | in_waiting_raises e :: _ | readline_raises e :: _ => Some e
  | nothing_waiting :: ts' | readline_returns _ :: ts' => first_exception ts'
  end.

(** A port that opens, delivers one line and is then unplugged. *)
Definition unplugged : device :=
  {| open_raises := None;
     turns := [nothing_waiting;
               readline_returns (line "U-Boot 2020.04");
               readline_raises (py "device disconnected");
               readline_returns (line "never read")] |}.

(** The lists of the window are parallel, one entry per board in each;
    [self.timers] is empty; and a running time timer has its elapsed timer. *)
Definition aligned (self : MainWindow) : Prop :=
  length (progress_bars self) = length (workers self)
  ∧ length (text_logs self) = length (workers self)
  ∧ length (time_labels self) = length (workers self)
  ∧ length (elapsed_timers self) = length (workers self)
  ∧ length (progress_timers self) = length (workers self)
  ∧ length (time_timers self) = length (workers self)
  ∧ timers self = []
  ∧ ∀ b, fires (time_timers self) b = true →
         elapsed_timers self !! b = Some (Some elapsed_timer_started).

(** What a signal adds to the log of its board. *)
Definition entry_of (s : signal) : list str :=
  match s with
  | log_signal _ m => [m]
  | error_signal _ m => [py "Error: " ++ m]
  | flashed_signal _ => [py "Firmware flashing completed"]
  | first_transmission_signal _ => []
  end.

(** The board an event is about, if it is about one. *)
Definition event_board (ev : event) : option nat :=
  match ev with
  | signal_received s => Some (signal_board s)
  | progress_timeout b | time_timeout b _ => Some b
  | add_button_clicked _ | window_closed => None
  end.

(** What a line read adds to the log of its board. *)
Definition line_entries (m : str) : list str :=
  m :: if contains marker m then [py "Firmware flashing completed"] else [].

(** What [QProgressBar()] reports after [setRange(0, 100)] and before any
    [setValue]: one below its minimum.  The program never sets a bar to 0. *)
Definition qt_unset_value : Z := -1.


(** C10 as the specification words it: an event turns a running worker into
    a stopped one only on the timeout path, a progress tick that finds the
    bar of that board at 100. *)
Definition only_timeout_stops (self : MainWindow) (ev : event) : Prop :=
  ∀ self' i w1 w2,
    handle qt_unset_value self ev = Some self' →
    workers self !! i = Some w1 → running w1 = true →
    workers self' !! i = Some w2 → running w2 = false →
    ev = progress_timeout i ∧ ∃ p, progress self i = Some p ∧ 100 ≤ p.

(** A port that prints the banner, is then stopped, and prints on. *)
Definition stopped_after_banner : device :=
  {| open_raises := None;
     turns := [readline_returns (line "Span Gateway 2.0.0 span-gateway ttymxc0");
               stop_called;
               readline_returns (line "span-gateway login:")] |}.

(** * Properties *)

(** ** Decoding with [errors='ignore'] *)

Lemma emit_char_inl c r :
  (∃ t, r = inl t) → ∃ t, emit_char c r = inl t.
Proof. intros [t ->]. simpl. eauto. Qed.

Lemma utf8_decode_ignore_total_upto (n : nat) :
  ∀ bs : list N, (length bs ≤ n)%nat → ∃ text, utf8_decode ignore bs = inl text.
Proof.
  induction n as [|n IH]; intros bs Hn.
  - destruct bs; [eauto | simpl in Hn; lia].
  - destruct bs as [|b0 r0]; [simpl; eauto|].
    simpl in Hn.
    assert (H0 : ∃ t, utf8_decode ignore r0 = inl t) by (apply IH; lia).
    cbn [utf8_decode on_error].
    destruct (sequence_length b0) as [[|[|k]]|]; try done;
      try (by apply emit_char_inl).
    all: destruct r0 as [|b1 r1]; [eauto|].
    all: assert (H1 : ∃ t, utf8_decode ignore r1 = inl t)
      by (apply IH; simpl in *; lia).
    all: destruct (negb (second_byte_ok b0 b1)); [done|].
    all: destruct (_ =? 2)%nat; [by apply emit_char_inl|].
    all: destruct r1 as [|b2 r2]; [eauto|].
    all: assert (H2 : ∃ t, utf8_decode ignore r2 = inl t)
      by (apply IH; simpl in *; lia).
    all: destruct (negb (is_continuation b2)); [done|].
    all: destruct (_ =? 3)%nat; [by apply emit_char_inl|].
    all: destruct r2 as [|b3 r3]; [eauto|].
    all: destruct (negb (is_continuation b3)); [done|].
    all: apply emit_char_inl, IH; simpl in *; lia.
Qed.

(** [bytes.decode('utf-8', errors='ignore')] never raises. *)
Lemma decode_ignore_total (bs : list byte) :
  ∃ text, decode ignore bs = inl text.
Proof. apply (utf8_decode_ignore_total_upto (length (map Byte.to_N bs))). lia. Qed.

Lemma decode_line_text bs : ∃ text, decode ignore bs = inl text ∧ line_text bs = strip text.
Proof.
  destruct (decode_ignore_total bs) as [t Ht]. exists t.
  unfold line_text. by rewrite Ht.
Qed.

(** ** The read loop *)

Lemma emitting_sigs s r : sigs_of (emitting s r) = s :: sigs_of r.
Proof. by destruct r as [[x w] sigs]. Qed.

Lemma emitting_fst s r : (emitting s r).1 = r.1.
Proof. by destruct r as [[x w] sigs]. Qed.

Lemma loop_stopped self ts :
  running self = false → loop self ts = (loop_finished, self, []).
Proof. intros H. destruct ts; simpl; by rewrite H. Qed.

Lemma count_nil p : count p [] = 0%nat.
Proof. done. Qed.

Lemma count_cons p s sigs :
  count p (s :: sigs) = ((if p s then 1 else 0) + count p sigs)%nat.
Proof.
  unfold count. rewrite filter_cons.
  destruct (p s); case_decide; simpl; congruence.
Qed.

Lemma count_app p sigs1 sigs2 :
  count p (sigs1 ++ sigs2) = (count p sigs1 + count p sigs2)%nat.
Proof. unfold count. by rewrite filter_app, length_app. Qed.

Lemma loop_readline self bs ts :
  running self = true →
  sigs_of (loop self (readline_returns bs :: ts)) =
  line_signals self (line_text bs)
  ++ sigs_of (loop (set_first_transmission_received self) ts).
Proof.
  intros Hrun. cbn [loop]. rewrite Hrun. cbn [negb].
  destruct (decode_line_text bs) as (text & -> & ->).
  unfold line_signals.
  destruct (first_transmission_received self) eqn:Hft; cbn [negb app].
  - assert (set_first_transmission_received self = self) as ->
      by (destruct self; simpl in *; by subst).
    destruct (contains marker (strip text));
      by rewrite ?emitting_sigs.
  - destruct (contains marker (strip text));
      by rewrite ?emitting_sigs.
Qed.

Lemma loop_readline_exit self bs ts :
  running self = true →
  (loop self (readline_returns bs :: ts)).1 =
  (loop (set_first_transmission_received self) ts).1.
Proof.
  intros Hrun. cbn [loop]. rewrite Hrun. cbn [negb].
  destruct (decode_line_text bs) as (text & -> & _).
  destruct (first_transmission_received self) eqn:Hft; cbn [negb].
  - assert (set_first_transmission_received self = self) as ->
      by (destruct self; simpl in *; by subst).
    destruct (contains marker (strip text)); by rewrite ?emitting_fst.
  - destruct (contains marker (strip text)); by rewrite ?emitting_fst.
Qed.

Lemma set_first_running self :
  running (set_first_transmission_received self) = running self.
Proof. done. Qed.

Lemma logged_line_signals self data : logged (line_signals self data) = [data].
Proof.
  unfold line_signals, logged.
  by destruct (first_transmission_received self), (contains marker data).
Qed.

Lemma count_flashed_line_signals self data :
  count is_flashed (line_signals self data)
  = if contains marker data then 1%nat else 0%nat.
Proof.
  unfold line_signals.
  by destruct (first_transmission_received self), (contains marker data).
Qed.

Lemma count_first_line_signals self data :
  count is_first_transmission (line_signals self data)
  = if first_transmission_received self then 0%nat else 1%nat.
Proof.
  unfold line_signals.
  by destruct (first_transmission_received self), (contains marker data).
Qed.

Lemma decoding_error_line_signals self data :
  count is_decoding_error (line_signals self data) = 0%nat.
Proof.
  unfold line_signals.
  by destruct (first_transmission_received self), (contains marker data).
Qed.

(** Every line read is logged, as decoded and stripped. *)
Lemma loop_logged ts : ∀ self,
  running self = true →
  logged (sigs_of (loop self ts)) = line_text <$> lines_read ts.
Proof.
  induction ts as [|t ts IH]; intros self Hrun.
  - simpl. by rewrite Hrun.
  - destruct t.
    + cbn [loop]. rewrite Hrun. cbn [negb]. by rewrite loop_stopped.
    + cbn [loop]. by rewrite Hrun.
    + cbn [loop]. rewrite Hrun. cbn [negb lines_read]. by apply IH.
    + cbn [loop]. by rewrite Hrun.
    + rewrite loop_readline by done. unfold logged at 1.
      rewrite omap_app. fold (logged (line_signals self (line_text bs))).
      rewrite logged_line_signals. cbn [lines_read fmap list_fmap app].
      f_equal. by apply IH.
Qed.

(** One [flashed_signal] per line that contains the marker. *)
Lemma loop_flashed ts : ∀ self,
  running self = true →
  count is_flashed (sigs_of (loop self ts))
  = length (filter (λ m, contains marker m = true) (line_text <$> lines_read ts)).
Proof.
  induction ts as [|t ts IH]; intros self Hrun.
  - simpl. by rewrite Hrun.
  - destruct t.
    + cbn [loop]. rewrite Hrun. cbn [negb]. by rewrite loop_stopped.
    + cbn [loop]. by rewrite Hrun.
    + cbn [loop]. rewrite Hrun. cbn [negb lines_read]. by apply IH.
    + cbn [loop]. by rewrite Hrun.
    + rewrite loop_readline, count_app, count_flashed_line_signals by done.
      cbn [lines_read fmap list_fmap]. rewrite filter_cons.
      rewrite (IH (set_first_transmission_received self)) by done.
      destruct (contains marker (line_text bs)); case_decide; simpl; congruence.
Qed.

(** The handler of [UnicodeDecodeError] is never entered. *)
Lemma loop_no_decoding_error ts : ∀ self,
  count is_decoding_error (sigs_of (loop self ts)) = 0%nat.
Proof.
  induction ts as [|t ts IH]; intros self;
    destruct (running self) eqn:Hrun;
    try (by rewrite loop_stopped).
  - simpl. by rewrite Hrun.
  - destruct t.
    + cbn [loop]. rewrite Hrun. cbn [negb]. by rewrite loop_stopped.
    + cbn [loop]. by rewrite Hrun.
    + cbn [loop]. rewrite Hrun. cbn [negb]. by apply IH.
    + cbn [loop]. by rewrite Hrun.
    + rewrite loop_readline, count_app, decoding_error_line_signals by done.
      apply IH.
Qed.

(** Once the flag is set, no [first_transmission_signal] follows. *)
Lemma loop_no_first ts : ∀ self,
  first_transmission_received self = true →
  count is_first_transmission (sigs_of (loop self ts)) = 0%nat.
Proof.
  induction ts as [|t ts IH]; intros self Hft;
    destruct (running self) eqn:Hrun;
    try (by rewrite loop_stopped).
  - simpl. by rewrite Hrun.
  - destruct t.
    + cbn [loop]. rewrite Hrun. cbn [negb]. by rewrite loop_stopped.
    + cbn [loop]. by rewrite Hrun.
    + cbn [loop]. rewrite Hrun. cbn [negb]. by apply IH.
    + cbn [loop]. by rewrite Hrun.
    + rewrite loop_readline, count_app, count_first_line_signals by done.
      rewrite Hft. by apply IH.
Qed.

(** Before the first line nothing is emitted; the first line is announced
    and then logged. *)
Lemma loop_first ts : ∀ self,
  running self = true →
  first_transmission_received self = false →
  match lines_read ts with
  | [] => sigs_of (loop self ts) = []
  | bs :: _ =>
    ∃ rest,
      sigs_of (loop self ts)
      = first_transmission_signal (board_id self)
        :: log_signal (board_id self) (line_text bs) :: rest
      ∧ count is_first_transmission rest = 0%nat
  end.
Proof.
  induction ts as [|t ts IH]; intros self Hrun Hft.
  - simpl. by rewrite Hrun.
  - destruct t; cbn [lines_read].
    + cbn [loop]. rewrite Hrun. cbn [negb]. by rewrite loop_stopped.
    + cbn [loop]. by rewrite Hrun.
    + cbn [loop]. rewrite Hrun. cbn [negb]. by apply IH.
    + cbn [loop]. by rewrite Hrun.
    + rewrite loop_readline by done. unfold line_signals. rewrite Hft.
      cbn [app]. eexists. split; [reflexivity|].
      rewrite count_app, loop_no_first by done.
      by destruct (contains marker (line_text bs)).
Qed.

(** ** [run]: the loop inside [try ... except ... finally] *)

Lemma run_opened self dev :
  open_raises dev = None →
  signals (run self dev) = sigs_of (loop self (turns dev))
  ∨ ∃ e, signals (run self dev)
         = sigs_of (loop self (turns dev)) ++ [serial_port_error self e].
Proof.
  intros Hopen. unfold run. rewrite Hopen.
  destruct (loop self (turns dev)) as [[[| |e] w] sigs]; simpl; eauto.
Qed.

Lemma serial_port_error_kind self e :
  is_flashed (serial_port_error self e) = false
  ∧ is_first_transmission (serial_port_error self e) = false
  ∧ is_decoding_error (serial_port_error self e) = false
  ∧ logged [serial_port_error self e] = [].
Proof. done. Qed.

Lemma run_logged self dev :
  running self = true → open_raises dev = None →
  logged (signals (run self dev)) = line_text <$> lines_read (turns dev).
Proof.
  intros Hrun Hopen.
  destruct (run_opened self dev Hopen) as [-> | [e ->]].
  - by apply loop_logged.
  - unfold logged. rewrite omap_app. simpl. rewrite app_nil_r.
    by apply loop_logged.
Qed.

(** On every way out of the loop of an opened port, [finally] closes the
    handle, once, and [run] returns. *)
Lemma run_closes_once self dev :
  open_raises dev = None →
  outcome (run self dev) ≠ in_loop →
  outcome (run self dev) = returned
  ∧ ser (run self dev) = Some {| is_open := false; close_calls := 1 |}.
Proof.
  intros Hopen. unfold run. rewrite Hopen.
  by destruct (loop self (turns dev)) as [[[| |e] w] sigs].
Qed.

(** ** The signals of a session *)

(** C1, refuted as stated: a port that prints the banner twice makes the
    worker emit [flashed_signal] twice. *)
Lemma flashed_twice_on_two_banners : ¬ flashed_exactly_once board0 two_banners.
Proof.
  intros H.
  assert (count is_flashed (signals (run board0 two_banners)) = 2%nat) as H2
    by (vm_compute; reflexivity).
  rewrite H in H2; [discriminate|].
  exists (py "Span Gateway 2.0.0 span-gateway ttymxc0").
  split; [|vm_compute; reflexivity].
  vm_compute. right. left.
Qed.

(** C1, amended: the worker has no latch on the marker; it emits one
    [flashed_signal] for each line it reads whose decoded, stripped text
    contains the marker, so exactly one only when exactly one line does. *)
Theorem flashed_per_marker_line (self : Worker) (dev : device) :
  running self = true →
  open_raises dev = None →
  count is_flashed (signals (run self dev))
  = length (filter (λ m, contains marker m = true)
                   (line_text <$> lines_read (turns dev))).
Proof.
  intros Hrun Hopen.
  destruct (run_opened self dev Hopen) as [-> | [e ->]].
  - by apply loop_flashed.
  - rewrite count_app. rewrite loop_flashed by done.
    change (count is_flashed [serial_port_error self e]) with 0%nat. lia.
Qed.

Lemma flashed_per_marker_line_witness :
  count is_flashed (signals (run board0 two_banners))
  = length (filter (λ m, contains marker m = true)
                   (line_text <$> lines_read (turns two_banners))).
Proof. apply flashed_per_marker_line; reflexivity. Defined.

(** C3, refuted as stated: the chunk is ill-formed (a strict decoder
    rejects it), yet the worker emits no decoding error for it, where the
    claim wants exactly one. *)
Lemma garbled_line_reports_nothing :
  decode strict garbled = inr invalid_start_byte
  ∧ signals (run board0 (feed [garbled]))
    = [first_transmission_signal 0; log_signal 0 (py "U-Boot 2020.04")]
  ∧ count is_decoding_error (signals (run board0 (feed [garbled]))) ≠ 1%nat.
Proof. repeat split; vm_compute; congruence. Qed.

(** C3, amended: the worker decodes with [errors='ignore'], which never
    raises: no decoding error is ever signalled; the bytes that cannot be
    decoded are dropped, the rest of the line is logged, and the loop goes
    on with the next lines, so every line read is logged. *)
Theorem undecodable_bytes_are_dropped (self : Worker) (dev : device) :
  running self = true →
  open_raises dev = None →
  (∀ bs, ∃ text, decode ignore bs = inl text ∧ line_text bs = strip text)
  ∧ count is_decoding_error (signals (run self dev)) = 0%nat
  ∧ logged (signals (run self dev)) = line_text <$> lines_read (turns dev).
Proof.
  intros Hrun Hopen. split; [apply decode_line_text|]. split.
  - destruct (run_opened self dev Hopen) as [-> | [e ->]].
    + apply loop_no_decoding_error.
    + rewrite count_app, loop_no_decoding_error. done.
  - by apply run_logged.
Qed.

Lemma undecodable_bytes_are_dropped_witness :
  (∀ bs, ∃ text, decode ignore bs = inl text ∧ line_text bs = strip text)
  ∧ count is_decoding_error
      (signals (run board0 (feed [garbled; line "DRAM: 2 GiB"]))) = 0%nat
  ∧ logged (signals (run board0 (feed [garbled; line "DRAM: 2 GiB"])))
    = line_text <$> lines_read (turns (feed [garbled; line "DRAM: 2 GiB"])).
Proof. apply undecodable_bytes_are_dropped; reflexivity. Defined.

(** C4, the route on which the code fails the claim: when the port cannot
    be opened, [ser] is still unbound in the [finally] block, so the release
    path raises [UnboundLocalError] after the serial error was signalled;
    no handle was ever bound or closed. *)
Theorem release_path_raises_when_open_fails (self : Worker) (e : str)
    (ts : list turn) :
  let r := run self {| open_raises := Some e; turns := ts |} in
  outcome r = raised UnboundLocalError
  ∧ ser r = None
  ∧ signals r = [serial_port_error self e].
Proof. done. Qed.

(** C8: a worker that reads at least one line emits
    [first_transmission_signal] exactly once: it is the first signal of the
    session and is followed at once by the log of the first line, hence
    before every [log_signal]; a worker that reads no line emits none. *)
Theorem first_transmission_exactly_once (self : Worker) (dev : device) :
  running self = true →
  first_transmission_received self = false →
  open_raises dev = None →
  match lines_read (turns dev) with
  | [] => count is_first_transmission (signals (run self dev)) = 0%nat
  | bs :: _ =>
    count is_first_transmission (signals (run self dev)) = 1%nat
    ∧ ∃ rest,
        signals (run self dev)
        = first_transmission_signal (board_id self)
          :: log_signal (board_id self) (line_text bs) :: rest
        ∧ count is_first_transmission rest = 0%nat
  end.
Proof.
  intros Hrun Hft Hopen.
  pose proof (loop_first (turns dev) self Hrun Hft) as Hloop.
  destruct (lines_read (turns dev)) as [|bs lines].
  - destruct (run_opened self dev Hopen) as [-> | [e ->]].
    + by rewrite Hloop.
    + by rewrite Hloop.
  - destruct Hloop as (rest & Hsigs & Hrest).
    destruct (run_opened self dev Hopen) as [-> | [e ->]]; rewrite Hsigs.
    + split; [by rewrite !count_cons, Hrest|]. eauto.
    + split; [by rewrite <- !app_comm_cons, !count_cons, count_app, Hrest|].
      exists (rest ++ [serial_port_error self e]).
      split; [done|]. by rewrite count_app, Hrest.
Qed.

Lemma first_transmission_exactly_once_witness :
  count is_first_transmission (signals (run board0 two_banners)) = 1%nat
  ∧ ∃ rest,
      signals (run board0 two_banners)
      = first_transmission_signal 0
        :: log_signal 0 (line_text (line "Starting kernel ...")) :: rest
      ∧ count is_first_transmission rest = 0%nat.
Proof.
  exact (first_transmission_exactly_once board0 two_banners
           eq_refl eq_refl eq_refl).
Defined.

(** ** The progress bar *)

(** Truncating [value + 100/77] adds one: the fraction 23/77 is lost. *)
Lemma int_add_increment v : -1 ≤ v → int (add_increment v) = v + 1.
Proof.
  intros Hv. unfold int, add_increment. simpl.
  replace (v * Z.pos (1 * 77) + 100 * 1 * 1) with (23 + (v + 1) * 77) by lia.
  change (Z.pos (1 * (1 * 77))) with 77.
  rewrite Z.quot_div_nonneg by lia.
  rewrite Z.div_add by lia. reflexivity.
Qed.

Lemma setValue_in_range v bar :
  minimum bar ≤ v ≤ maximum bar →
  setValue v bar
  = {| minimum := minimum bar; maximum := maximum bar; value := v |}.
Proof.
  intros Hv. unfold setValue.
  destruct (v <? minimum bar) eqn:H1; [lia|].
  destruct (maximum bar <? v) eqn:H2; [lia|]. done.
Qed.

Lemma setValue_100 bar :
  in_range_bar bar →
  in_range_bar (setValue 100 bar) ∧ value bar ≤ value (setValue 100 bar).
Proof.
  intros (Hmin & Hmax & Hv). rewrite setValue_in_range by lia.
  unfold in_range_bar. simpl. lia.
Qed.

Lemma setValue_increment bar :
  in_range_bar bar → value bar < 100 →
  setValue (int (add_increment (value bar))) bar
  = {| minimum := 0; maximum := 100; value := value bar + 1 |}.
Proof.
  intros (Hmin & Hmax & Hv) Hlt. rewrite int_add_increment by lia.
  rewrite setValue_in_range by lia. by rewrite Hmin, Hmax.
Qed.

Section WindowProperties.

Variable unset_value : Z.

Lemma add_board_bars self p r i :
  progress_bars (add_board unset_value self p r i)
  = progress_bars self ++ [new_progress_bar unset_value].
Proof. done. Qed.

Lemma add_boards_bars ports : ∀ self,
  progress_bars (add_boards unset_value self ports)
  = progress_bars self
    ++ replicate (length ports) (new_progress_bar unset_value).
Proof.
  unfold add_boards.
  induction ports as [|p ports IH]; intros self; simpl.
  - by rewrite app_nil_r.
  - rewrite IH. simpl. by rewrite <- app_assoc.
Qed.

(** What one event can do to the list of bars: append fresh ones, or call
    [setValue] on one of them, with 100 or with the truncated increment. *)
Lemma handle_bars self ev self' :
  handle unset_value self ev = Some self' →
  (∃ n, progress_bars self'
        = progress_bars self ++ replicate n (new_progress_bar unset_value))
  ∨ ∃ b bar v,
      progress_bars self !! b = Some bar
      ∧ progress_bars self' = <[b := setValue v bar]> (progress_bars self)
      ∧ (v = 100 ∨ (value bar < 100 ∧ v = int (add_increment (value bar)))).
Proof.
  assert (Hsame : ∀ s : MainWindow, progress_bars s = progress_bars self →
            ∃ n : nat, progress_bars s
              = progress_bars self ++ replicate n (new_progress_bar unset_value)).
  { intros s ->. exists 0%nat. by rewrite app_nil_r. }
  intros H. destruct ev as [ports|[b m|b m|b|b]|b|b e|]; simpl in H.
  - left. injection H as <-. eexists. apply add_boards_bars.
  - left. unfold update_log in H. simplify_option_eq. by apply Hsame.
  - left. unfold handle_error in H. simplify_option_eq. by apply Hsame.
  - right. unfold handle_flashed in H.
    destruct (progress_bars self !! b) as [bar|] eqn:Hbar; [|done].
    simpl in H. destruct (append_log _ _ _); [|done].
    injection H as <-. exists b, bar, 100. eauto.
  - left. unfold start_timers in H. simplify_option_eq. by apply Hsame.
  - destruct (fires _ _); [|left; injection H as <-; by apply Hsame].
    right. unfold update_progress in H.
    destruct (progress_bars self !! b) as [bar|] eqn:Hbar; [|done].
    simpl in H. destruct (mjoin _); [|done]. simpl in H.
    destruct (workers self !! b); [|done]. simpl in H.
    destruct (value bar <? 100) eqn:Hlt.
    + injection H as <-. exists b, bar, (int (add_increment (value bar))).
      split; [done|]. split; [done|]. right. split; [lia|done].
    + destruct (append_log _ _ _); [|done]. injection H as <-.
      exists b, bar, 100. eauto.
  - left. destruct (fires _ _); [|injection H as <-; by apply Hsame].
    unfold update_time in H. simplify_option_eq. by apply Hsame.
  - left. injection H as <-. by apply Hsame.
Qed.

(** One event keeps every bar inside 0..100 and moves none backwards. *)
Lemma handle_progress self ev self' :
  0 ≤ unset_value ≤ 100 →
  Forall in_range_bar (progress_bars self) →
  handle unset_value self ev = Some self' →
  Forall in_range_bar (progress_bars self')
  ∧ ∀ b p, progress self b = Some p →
           ∃ p', progress self' b = Some p' ∧ p ≤ p'.
Proof.
  intros Hu Hinv H. unfold progress.
  destruct (handle_bars self ev self' H)
    as [[n ->] | (b & bar & v & Hbar & -> & Hv)].
  - split.
    + apply Forall_app. split; [done|].
      apply Forall_replicate. unfold in_range_bar. simpl. lia.
    + intros b p Hp. exists p. split; [|lia].
      destruct (progress_bars self !! b) as [bar|] eqn:Hbar; [|done].
      by rewrite (lookup_app_l_Some _ _ _ _ Hbar).
  - assert (Hin : in_range_bar bar)
      by (eapply Forall_lookup_1; eauto).
    assert (Hnew : in_range_bar (setValue v bar)
                   ∧ value bar ≤ value (setValue v bar)).
    { destruct Hv as [-> | [Hlt ->]]; [by apply setValue_100|].
      rewrite setValue_increment by done.
      destruct Hin as (? & ? & ?). unfold in_range_bar. simpl. lia. }
    split.
    + apply Forall_insert; [done | apply Hnew].
    + intros b' p Hp. destruct (decide (b = b')) as [<- | Hne].
      * rewrite list_lookup_insert_eq by (by eapply lookup_lt_Some).
        rewrite Hbar in Hp. simpl in *. injection Hp as <-.
        eexists. split; [done | apply Hnew].
      * rewrite list_lookup_insert_ne by done. exists p. split; [done|lia].
Qed.

Lemma handle_all_progress evs : ∀ self self',
  0 ≤ unset_value ≤ 100 →
  Forall in_range_bar (progress_bars self) →
  handle_all unset_value self evs = Some self' →
  Forall in_range_bar (progress_bars self')
  ∧ ∀ b p, progress self b = Some p →
           ∃ p', progress self' b = Some p' ∧ p ≤ p'.
Proof.
  induction evs as [|ev evs IH]; intros self self' Hu Hinv H; simpl in H.
  - injection H as <-. split; [done|]. intros b p Hp. exists p. split; [done|lia].
  - destruct (handle unset_value self ev) as [mid|] eqn:Hev; [|done].
    simpl in H.
    destruct (handle_progress self ev mid Hu Hinv Hev) as [Hmid Hstep].
    destruct (IH mid self' Hu Hmid H) as [Hfin Hrest].
    split; [done|]. intros b p Hp.
    destruct (Hstep b p Hp) as (p1 & Hp1 & Hle1).
    destruct (Hrest b p1 Hp1) as (p2 & Hp2 & Hle2).
    exists p2. split; [done|lia].
Qed.

(** ** Counting ticks *)

Lemma ticking_shows self b v :
  ticking self b v = true →
  progress self b = Some v ∧ fires (progress_timers self) b = true.
Proof.
  unfold ticking, progress, fires.
  destruct (progress_bars self !! b) as [bar|]; [|done].
  destruct (progress_timers self !! b) as [[t|]|]; try done.
  destruct (workers self !! b); [|done].
  destruct (text_logs self !! b); [|done].
  intros H. repeat (apply andb_prop in H as [H ?]).
  split; [simpl; f_equal; lia | done].
Qed.

(** Below 100 a tick adds one point and touches nothing else. *)
Lemma tick_adds_one self b v :
  ticking self b v = true → -1 ≤ v < 100 →
  ∃ self',
    handle unset_value self (progress_timeout b) = Some self'
    ∧ ticking self' b (v + 1) = true
    ∧ workers self' = workers self
    ∧ text_logs self' = text_logs self.
Proof.
  intros Ht Hv. destruct (ticking_shows self b v Ht) as [_ Hfires].
  unfold ticking in Ht. cbn [handle]. rewrite Hfires.
  unfold update_progress.
  destruct (progress_bars self !! b) as [bar|] eqn:Hbar; [|done].
  destruct (progress_timers self !! b) as [[t|]|] eqn:Htimer; try done.
  destruct (workers self !! b) as [w|] eqn:Hw; [|done].
  destruct (text_logs self !! b) as [log|] eqn:Hlog; [|done].
  repeat (apply andb_prop in Ht as [Ht ?]).
  assert (minimum bar = 0) by lia. assert (maximum bar = 100) by lia.
  assert (value bar = v) as Hval by lia.
  cbn [mbind option_bind mjoin option_join].
  rewrite Hval. destruct (v <? 100) eqn:Hlt; [|lia].
  rewrite int_add_increment by lia.
  rewrite setValue_in_range by lia.
  eexists. split; [reflexivity|].
  split; [|done]. unfold ticking. cbn.
  rewrite list_lookup_insert_eq by (by eapply lookup_lt_Some).
  rewrite Htimer, Hw, Hlog. cbn.
  repeat (apply andb_true_intro; split); try done; lia.
Qed.

Lemma ticks_add_up b n : ∀ self v,
  ticking self b v = true → -1 ≤ v → v + Z.of_nat n ≤ 100 →
  ∃ self',
    handle_all unset_value self (replicate n (progress_timeout b)) = Some self'
    ∧ ticking self' b (v + Z.of_nat n) = true
    ∧ workers self' = workers self
    ∧ text_logs self' = text_logs self.
Proof.
  induction n as [|n IH]; intros self v Ht Hv Hn.
  - exists self. simpl. by rewrite Z.add_0_r.
  - destruct (tick_adds_one self b v Ht) as (s1 & H1 & Ht1 & Hw1 & Hl1); [lia|].
    destruct (IH s1 (v + 1) Ht1) as (s2 & H2 & Ht2 & Hw2 & Hl2); [lia..|].
    exists s2. cbn [replicate handle_all]. rewrite H1. cbn.
    split; [done|]. split; [|by rewrite Hw2, Hl2].
    by replace (v + Z.of_nat (S n)) with (v + 1 + Z.of_nat n) by lia.
Qed.

(** At 100 a tick stops the timer, logs the success line and stops the
    worker. *)
Lemma tick_at_100 self b :
  ticking self b 100 = true →
  ∃ self' w,
    handle unset_value self (progress_timeout b) = Some self'
    ∧ workers self !! b = Some w
    ∧ workers self' = <[b := stop w]> (workers self)
    ∧ progress self' b = Some 100
    ∧ fires (progress_timers self') b = false.
Proof.
  intros Ht. destruct (ticking_shows self b 100 Ht) as [_ Hfires].
  unfold ticking in Ht. cbn [handle]. rewrite Hfires.
  unfold update_progress, append_log, progress, fires.
  destruct (progress_bars self !! b) as [bar|] eqn:Hbar; [|done].
  destruct (progress_timers self !! b) as [[t|]|] eqn:Htimer; try done.
  destruct (workers self !! b) as [w|] eqn:Hw; [|done].
  destruct (text_logs self !! b) as [log|] eqn:Hlog; [|done].
  repeat (apply andb_prop in Ht as [Ht ?]).
  cbn [mbind option_bind mjoin option_join].
  destruct (value bar <? 100) eqn:Hlt; [lia|].
  rewrite setValue_in_range by lia.
  eexists _, w. split; [reflexivity|]. split; [done|]. split; [done|]. cbn.
  rewrite !list_lookup_insert_eq by (by eapply lookup_lt_Some). done.
Qed.

(** C6: the bar holds an integer, and [int(value + 100/77)] is
    [value + 1]: from 0, [n] ticks show [n] for every [n] up to 100, the
    timer still running, so 100 is reached by the 100th tick and 77 ticks
    show 77. *)
Theorem each_tick_adds_one_point (self : MainWindow) (b : nat) :
  ticking self b 0 = true →
  (∀ v, 0 ≤ v < 100 → int (add_increment v) = v + 1)
  ∧ ∀ n, (n ≤ 100)%nat →
      ∃ self',
        handle_all unset_value self (replicate n (progress_timeout b))
        = Some self'
        ∧ progress self' b = Some (Z.of_nat n)
        ∧ fires (progress_timers self') b = true.
Proof.
  intros Ht. split; [intros v Hv; apply int_add_increment; lia|].
  intros n Hn.
  destruct (ticks_add_up b n self 0 Ht) as (s & Hs & Hts & _); [lia..|].
  exists s. split; [done|]. by apply ticking_shows in Hts.
Qed.

(** ** Board ids *)

Lemma add_boards_ids ports : ∀ self,
  board_ids (add_boards unset_value self ports)
  = board_ids self ++ seq (length (workers self)) (length ports).
Proof.
  unfold add_boards, board_ids.
  induction ports as [|p ports IH]; intros self; simpl.
  - by rewrite app_nil_r.
  - rewrite IH. simpl. rewrite fmap_app, length_app. simpl.
    rewrite <- app_assoc. simpl. do 3 f_equal. lia.
Qed.

Lemma stop_keeps_id w : board_id (stop w) = board_id w.
Proof. done. Qed.

(** What one event can do to the list of workers: append new ones, stop
    one (the timeout branch of [update_progress]), or stop all (the window
    is closing). *)
Lemma handle_workers self ev self' :
  handle unset_value self ev = Some self' →
  (∃ more, workers self' = workers self ++ more
           ∧ board_id <$> more
             = seq (length (workers self)) (length more))
  ∨ (∃ b w p, ev = progress_timeout b
              ∧ workers self !! b = Some w
              ∧ workers self' = <[b := stop w]> (workers self)
              ∧ progress self b = Some p ∧ 100 ≤ p)
  ∨ (ev = window_closed ∧ workers self' = stop <$> workers self).
Proof.
  assert (Hsame : ∀ s : MainWindow, workers s = workers self →
            ∃ more, workers s = workers self ++ more
                    ∧ board_id <$> more
                      = seq (length (workers self)) (length more)).
  { intros s ->. exists []. by rewrite app_nil_r. }
  intros H. destruct ev as [ports|[b m|b m|b|b]|b|b e|]; simpl in H.
  - left. injection H as <-.
    pose proof (add_boards_ids ports self) as Hids. unfold board_ids in Hids.
    assert (Hpre : ∃ more, workers (add_boards unset_value self ports)
                           = workers self ++ more).
    { clear Hids Hsame. unfold add_boards. revert self.
      induction ports as [|p ports IH]; intros self; simpl.
      - exists []. by rewrite app_nil_r.
      - destruct (IH (add_board unset_value self p 115200
                                (length (workers self)))) as [more ->].
        simpl. rewrite <- app_assoc. eauto. }
    destruct Hpre as [more Hmore]. exists more. split; [done|].
    rewrite Hmore, fmap_app in Hids. apply app_inv_head in Hids.
    rewrite Hids. f_equal.
    apply (f_equal length) in Hids. by rewrite length_fmap, length_seq in Hids.
  - left. unfold update_log in H. simplify_option_eq. by apply Hsame.
  - left. unfold handle_error in H. simplify_option_eq. by apply Hsame.
  - left. unfold handle_flashed in H. simplify_option_eq. by apply Hsame.
  - left. unfold start_timers in H. simplify_option_eq. by apply Hsame.
  - destruct (fires _ _); [|left; injection H as <-; by apply Hsame].
    unfold update_progress in H.
    destruct (progress_bars self !! b) as [bar|] eqn:Hbar; [|done].
    simpl in H. destruct (mjoin _); [|done]. simpl in H.
    destruct (workers self !! b) as [w|] eqn:Hw; [|done]. simpl in H.
    destruct (value bar <? 100) eqn:Hlt.
    + left. injection H as <-. by apply Hsame.
    + destruct (append_log _ _ _); [|done]. injection H as <-.
      right. left. exists b, w, (value bar).
      unfold progress. rewrite Hbar. repeat split; try done. lia.
  - left. destruct (fires _ _); [|injection H as <-; by apply Hsame].
    unfold update_time in H. simplify_option_eq. by apply Hsame.
  - right. right. by injection H as <-.
Qed.

Lemma handle_ids self ev self' :
  handle unset_value self ev = Some self' →
  ∃ n, board_ids self' = board_ids self ++ seq (length (board_ids self)) n.
Proof.
  intros H. unfold board_ids. rewrite length_fmap.
  destruct (handle_workers self ev self' H)
    as [(more & -> & Hmore) | [(b & w & p & _ & Hw & -> & _) | [_ ->]]].
  - exists (length more). by rewrite fmap_app, Hmore.
  - exists 0%nat. rewrite list_fmap_insert, stop_keeps_id, app_nil_r.
    apply list_insert_id. by rewrite list_lookup_fmap, Hw.
  - exists 0%nat. rewrite app_nil_r, <- list_fmap_compose.
    by apply list_fmap_ext.
Qed.

Lemma handle_all_ids evs : ∀ self self',
  handle_all unset_value self evs = Some self' →
  ∃ n, board_ids self' = board_ids self ++ seq (length (board_ids self)) n.
Proof.
  induction evs as [|ev evs IH]; intros self self' H; simpl in H.
  - injection H as <-. exists 0%nat. by rewrite app_nil_r.
  - destruct (handle unset_value self ev) as [mid|] eqn:Hev; [|done].
    simpl in H. destruct (handle_ids self ev mid Hev) as [n Hn].
    destruct (IH mid self' H) as [m Hm].
    exists (n + m)%nat. rewrite Hm, Hn, length_app, length_seq.
    by rewrite <- app_assoc, seq_app.
Qed.

(** C9: the ids handed out are 0, 1, 2, ... in the order of registration:
    after any run of the window they are exactly [0 .. N-1], hence distinct
    and increasing; [add_boards] continues the sequence from there; and
    whatever happens later, stopped workers included, the ids already
    given stay as they are at the front of the list. *)
Theorem board_ids_are_sequential (evs : list event) (self : MainWindow) :
  handle_all unset_value new_MainWindow evs = Some self →
  board_ids self = seq 0 (length (workers self))
  ∧ NoDup (board_ids self)
  ∧ (∀ ports,
       board_ids (add_boards unset_value self ports)
       = board_ids self ++ seq (length (workers self)) (length ports))
  ∧ (∀ evs' self',
       handle_all unset_value self evs' = Some self' →
       board_ids self `prefix_of` board_ids self').
Proof.
  intros H.
  assert (Hseq : board_ids self = seq 0 (length (workers self))).
  { destruct (handle_all_ids evs new_MainWindow self H) as [n Hn].
    simpl in Hn. rewrite <- (length_fmap board_id). fold (board_ids self).
    by rewrite Hn, length_seq. }
  split; [done|]. split; [rewrite Hseq; apply NoDup_seq|].
  split; [intros ports; apply add_boards_ids|].
  intros evs' self' H'.
  destruct (handle_all_ids evs' self self' H') as [n ->].
  by eexists.
Qed.

(** ** Who stops a worker *)

Lemma lines_read_feed lines : lines_read (readline_returns <$> lines) = lines.
Proof. induction lines as [|bs lines IH]; [done|]. simpl. by f_equal. Qed.

Lemma loop_feed lines : ∀ self,
  running self = true →
  ∃ w sigs, loop self (readline_returns <$> lines) = (still_looping, w, sigs)
            ∧ running w = true.
Proof.
  induction lines as [|bs lines IH]; intros self Hrun.
  - exists self, []. simpl. by rewrite Hrun.
  - destruct (IH (set_first_transmission_received self)) as (w & sigs & Hl & Hw);
      [done|].
    pose proof (loop_readline_exit self bs (readline_returns <$> lines) Hrun)
      as Hexit.
    rewrite Hl in Hexit. cbn [fmap list_fmap].
    destruct (loop self (readline_returns bs :: _)) as [[x w'] sigs'].
    simpl in Hexit. injection Hexit as -> ->. eauto.
Qed.

End WindowProperties.

(** ** The statements tried on a bench session *)

Lemma each_tick_adds_one_point_witness :
  ∃ start,
    handle_all 0 new_MainWindow one_board = Some start
    ∧ (∀ v, 0 ≤ v < 100 → int (add_increment v) = v + 1)
    ∧ ∀ n, (n ≤ 100)%nat →
        ∃ self',
          handle_all 0 start (replicate n (progress_timeout 0)) = Some self'
          ∧ progress self' 0 = Some (Z.of_nat n)
          ∧ fires (progress_timers self') 0 = true.
Proof.
  eexists. split; [vm_compute; reflexivity|].
  apply (each_tick_adds_one_point 0). reflexivity.
Defined.

Lemma board_ids_are_sequential_witness :
  ∃ self,
    handle_all 0 new_MainWindow (bench_events ++ later_events) = Some self
    ∧ board_ids self = [0; 1; 2]%nat
    ∧ board_ids self = seq 0 (length (workers self))
    ∧ NoDup (board_ids self)
    ∧ (∀ ports,
         board_ids (add_boards 0 self ports)
         = board_ids self ++ seq (length (workers self)) (length ports))
    ∧ (∀ evs' self',
         handle_all 0 self evs' = Some self' →
         board_ids self `prefix_of` board_ids self').
Proof.
  eexists. split; [vm_compute; reflexivity|]. split; [reflexivity|].
  apply (board_ids_are_sequential 0 (bench_events ++ later_events)).
  vm_compute; reflexivity.
Defined.

(** ** Seventy-seven ticks *)

(** C2, where the code departs from it: from 0, after 77 ticks the bar shows
    77, the timer is still running, the worker too, and nothing was logged;
    the 78th tick moves the bar to 78.  The bar shows 100 after the 100th
    tick and the completion branch runs on the 101st: it stops the timer
    and the worker and logs the success line. *)
Theorem seventy_seven_ticks_show_77 :
  ∃ s0 s77 s78 s100 s101,
    handle_all 0 new_MainWindow one_board = Some s0
    ∧ progress s0 0 = Some 0
    ∧ handle_all 0 s0 (replicate 77 (progress_timeout 0)) = Some s77
    ∧ progress s77 0 = Some 77
    ∧ fires (progress_timers s77) 0 = true
    ∧ running <$> workers s77 !! 0%nat = Some true
    ∧ text_logs s77 !! 0%nat = Some []
    ∧ handle 0 s77 (progress_timeout 0) = Some s78
    ∧ progress s78 0 = Some 78
    ∧ handle_all 0 s78 (replicate 22 (progress_timeout 0)) = Some s100
    ∧ progress s100 0 = Some 100
    ∧ fires (progress_timers s100) 0 = true
    ∧ text_logs s100 !! 0%nat = Some []
    ∧ handle 0 s100 (progress_timeout 0) = Some s101
    ∧ progress s101 0 = Some 100
    ∧ fires (progress_timers s101) 0 = false
    ∧ running <$> workers s101 !! 0%nat = Some false
    ∧ text_logs s101 !! 0%nat
      = Some [py "This board is flashed successfully"].
Proof.
  eexists _, _, _, _, _.
  repeat (split; [vm_compute; reflexivity|]).
  vm_compute; reflexivity.
Qed.

(** ** The elapsed-time label *)







(** [update_time] puts that text on the board's label. *)
Lemma update_time_label self b elapsed self' :
  update_time self b elapsed = Some self' →
  time_labels self' !! b = Some (current_time elapsed).
Proof.
  unfold update_time. intros H.
  destruct (mjoin _); [|done]. simpl in H.
  destruct (time_labels self !! b) eqn:Hl; [|done]. simpl in H.
  injection H as <-. simpl.
  apply list_lookup_insert_eq. by eapply lookup_lt_Some.
Qed.

(** * Further properties of the worker *)

(** ** Leaving the loop *)

(** While the thread is in the loop the handle stays open and untouched;
    once [run] is over, whichever way the loop was left, the handle has been
    closed by exactly one call. *)
Theorem handle_closed_exactly_once_on_exit (self : Worker) (dev : device) :
  open_raises dev = None →
  (outcome (run self dev) = in_loop ∧ ser (run self dev) = Some opened)
  ∨ (outcome (run self dev) = returned
     ∧ ser (run self dev) = Some {| is_open := false; close_calls := 1 |}).
Proof.
  intros Hopen. unfold run. rewrite Hopen.
  destruct (loop self (turns dev)) as [[[| |e] w] sigs]; simpl; eauto.
Qed.

Lemma handle_closed_exactly_once_on_exit_witness :
  (outcome (run board0 unplugged) = in_loop
   ∧ ser (run board0 unplugged) = Some opened)
  ∨ (outcome (run board0 unplugged) = returned
     ∧ ser (run board0 unplugged)
       = Some {| is_open := false; close_calls := 1 |}).
Proof. apply handle_closed_exactly_once_on_exit. reflexivity. Defined.

Lemma loop_after_exit pre t post : ∀ self,
  ends_loop t = true →
  loop self (pre ++ t :: post) = loop self (pre ++ [t]).
Proof.
  induction pre as [|h pre IH]; intros self Ht;
    destruct (running self) eqn:Hrun;
    try (by rewrite !loop_stopped).
  - destruct t; try done; cbn [app loop]; rewrite Hrun; cbn [negb]; try done.
    by rewrite !loop_stopped.
  - destruct h; cbn [app loop]; rewrite Hrun; cbn [negb]; try done.
    + by rewrite !loop_stopped.
    + by apply IH.
    + by rewrite !IH.
Qed.

(** What the port does after a stop request or an exception is never looked
    at: the session is the same as if the script ended there. *)
Theorem nothing_is_read_after_exit (self : Worker) (pre post : list turn)
    (t : turn) :
  ends_loop t = true →
  run self {| open_raises := None; turns := pre ++ t :: post |}
  = run self {| open_raises := None; turns := pre ++ [t] |}.
Proof. intros Ht. unfold run. simpl. by rewrite loop_after_exit. Qed.

Lemma nothing_is_read_after_exit_witness :
  run board0 {| open_raises := None;
                turns := [readline_returns (line "U-Boot 2020.04")]
                         ++ stop_called
                         :: [readline_returns
                               (line "Span Gateway 2.0.0 span-gateway")] |}
  = run board0 {| open_raises := None;
                  turns := [readline_returns (line "U-Boot 2020.04")]
                           ++ [stop_called] |}.
Proof. apply nothing_is_read_after_exit. reflexivity. Defined.

(** ** What a worker signals *)

Lemma loop_board ts : ∀ self,
  Forall (λ s, signal_board s = board_id self) (sigs_of (loop self ts)).
Proof.
  induction ts as [|t ts IH]; intros self;
    destruct (running self) eqn:Hrun;
    try (rewrite loop_stopped by done; constructor).
  - simpl. rewrite Hrun. constructor.
  - destruct t.
    + cbn [loop]. rewrite Hrun. cbn [negb].
      rewrite loop_stopped by done. constructor.
    + cbn [loop]. rewrite Hrun. constructor.
    + cbn [loop]. rewrite Hrun. cbn [negb]. apply IH.
    + cbn [loop]. rewrite Hrun. constructor.
    + rewrite loop_readline by done. apply Forall_app. split.
      * unfold line_signals.
        destruct (first_transmission_received self),
                 (contains marker (line_text bs));
          repeat constructor.
      * apply (IH (set_first_transmission_received self)).
Qed.

(** A worker only ever signals about its own board. *)
Theorem signals_carry_own_board_id (self : Worker) (dev : device) :
  Forall (λ s, signal_board s = board_id self) (signals (run self dev)).
Proof.
  destruct (open_raises dev) as [e|] eqn:Hopen.
  - unfold run. rewrite Hopen. simpl. by repeat constructor.
  - destruct (run_opened self dev Hopen) as [-> | [e ->]].
    + apply loop_board.
    + apply Forall_app. split; [apply loop_board | by repeat constructor].
Qed.

Lemma loop_no_error ts : ∀ self,
  count is_error (sigs_of (loop self ts)) = 0%nat.
Proof.
  induction ts as [|t ts IH]; intros self;
    destruct (running self) eqn:Hrun;
    try (by rewrite loop_stopped).
  - simpl. by rewrite Hrun.
  - destruct t.
    + cbn [loop]. rewrite Hrun. cbn [negb]. by rewrite loop_stopped.
    + cbn [loop]. by rewrite Hrun.
    + cbn [loop]. rewrite Hrun. cbn [negb]. by apply IH.
    + cbn [loop]. by rewrite Hrun.
    + rewrite loop_readline, count_app by done.
      rewrite (IH (set_first_transmission_received self)).
      unfold line_signals.
      by destruct (first_transmission_received self),
                  (contains marker (line_text bs)).
Qed.

Lemma loop_exit_kind ts : ∀ self,
  running self = true →
  (loop self ts).1.1
  = match first_exception ts with
    | Some e => loop_raised e
    | None => if existsb ends_loop ts then loop_finished else still_looping
    end.
Proof.
  induction ts as [|t ts IH]; intros self Hrun.
  - simpl. by rewrite Hrun.
  - destruct t; cbn [first_exception existsb ends_loop orb].
    + cbn [loop]. rewrite Hrun. cbn [negb]. by rewrite loop_stopped.
    + cbn [loop]. by rewrite Hrun.
    + cbn [loop]. rewrite Hrun. cbn [negb]. by apply IH.
    + cbn [loop]. by rewrite Hrun.
    + pose proof (loop_readline_exit self bs ts Hrun) as Hexit.
      apply (f_equal fst) in Hexit. rewrite Hexit. by apply IH.
Qed.

(** A failure of the opened port is reported once, as the last signal of
    the session, after which [run] returns; the signals before it are the
    ordinary ones of the lines read until then. *)
Theorem port_failure_is_reported_once (self : Worker) (dev : device)
    (e : str) :
  running self = true →
  open_raises dev = None →
  first_exception (turns dev) = Some e →
  signals (run self dev)
  = sigs_of (loop self (turns dev)) ++ [serial_port_error self e]
  ∧ count is_error (sigs_of (loop self (turns dev))) = 0%nat
  ∧ count is_error (signals (run self dev)) = 1%nat
  ∧ outcome (run self dev) = returned.
Proof.
  intros Hrun Hopen He.
  pose proof (loop_exit_kind (turns dev) self Hrun) as Hexit.
  pose proof (loop_no_error (turns dev) self) as Hnone.
  rewrite He in Hexit. unfold run. rewrite Hopen.
  destruct (loop self (turns dev)) as [[x w] sigs]. simpl in *. subst x.
  simpl. repeat split; try done.
  by rewrite count_app, Hnone.
Qed.

Lemma port_failure_is_reported_once_witness :
  signals (run board0 unplugged)
  = sigs_of (loop board0 (turns unplugged))
    ++ [serial_port_error board0 (py "device disconnected")]
  ∧ count is_error (sigs_of (loop board0 (turns unplugged))) = 0%nat
  ∧ count is_error (signals (run board0 unplugged)) = 1%nat
  ∧ outcome (run board0 unplugged) = returned.
Proof. apply port_failure_is_reported_once; reflexivity. Defined.

(** Without an exception no error is signalled at all. *)
Theorem no_failure_no_error_signal (self : Worker) (dev : device) :
  open_raises dev = None →
  first_exception (turns dev) = None →
  count is_error (signals (run self dev)) = 0%nat.
Proof.
  intros Hopen He.
  destruct (running self) eqn:Hrun.
  - pose proof (loop_exit_kind (turns dev) self Hrun) as Hexit.
    pose proof (loop_no_error (turns dev) self) as Hnone.
    rewrite He in Hexit. unfold run. rewrite Hopen.
    destruct (loop self (turns dev)) as [[x w] sigs]. simpl in *. subst x.
    by destruct (existsb ends_loop (turns dev)).
  - unfold run. rewrite Hopen, loop_stopped by done. done.
Qed.

Lemma no_failure_no_error_signal_witness :
  count is_error (signals (run board0 two_banners)) = 0%nat.
Proof. apply no_failure_no_error_signal; reflexivity. Defined.

(** ** The text of a logged line *)

Lemma lstrip_length s : (length (lstrip s) ≤ length s)%nat.
Proof.
  induction s as [|c s IH]; simpl; [lia|].
  destruct (isspace c); simpl; lia.
Qed.

Lemma lstrip_split s : ∃ sp, s = sp ++ lstrip s.
Proof.
  induction s as [|c s [sp IH]]; [by exists []|]. simpl.
  destruct (isspace c); [|by exists []].
  exists (c :: sp). simpl. by f_equal.
Qed.

Lemma lstrip_lstrip s : lstrip (lstrip s) = lstrip s.
Proof.
  induction s as [|c s IH]; [done|]. simpl.
  destruct (isspace c) eqn:Hc; [done|]. simpl. by rewrite Hc.
Qed.

(** If nothing is stripped from a text, nothing is stripped from any of its
    beginnings. *)
Lemma lstrip_front x t : lstrip (x ++ t) = x ++ t → lstrip x = x.
Proof.
  destruct x as [|c x]; [done|]. simpl.
  destruct (isspace c); [|done].
  intros H. pose proof (lstrip_length (x ++ t)) as Hlen.
  rewrite H in Hlen. simpl in Hlen. lia.
Qed.

Lemma strip_strip s : strip (strip s) = strip s.
Proof.
  unfold strip, rstrip.
  destruct (lstrip_split (rev (lstrip s))) as [sp Hsp].
  set (z := lstrip (rev (lstrip s))) in *.
  assert (Hfront : lstrip (rev z) = rev z).
  { apply (lstrip_front _ (rev sp)).
    rewrite <- rev_app_distr, <- Hsp, rev_involutive. apply lstrip_lstrip. }
  rewrite Hfront, rev_involutive. unfold z. by rewrite lstrip_lstrip.
Qed.

(** Every message a worker logs is stripped: stripping it again changes
    nothing, so it neither starts nor ends with white space. *)
Theorem logged_messages_are_stripped (self : Worker) (dev : device) :
  Forall (λ m, strip m = m) (logged (signals (run self dev))).
Proof.
  assert (Hlines : ∀ lines : list (list byte),
            Forall (λ m, strip m = m) (line_text <$> lines)).
  { intros lines. apply Forall_fmap, Forall_forall. intros bs _. simpl.
    destruct (decode_line_text bs) as (text & _ & ->). apply strip_strip. }
  destruct (open_raises dev) as [e|] eqn:Hopen.
  - unfold run. rewrite Hopen. simpl. constructor.
  - destruct (running self) eqn:Hrun.
    + rewrite run_logged by done. apply Hlines.
    + unfold run. rewrite Hopen, loop_stopped by done. simpl. constructor.
Qed.

Lemma utf8_decode_ascii errors (bs : list N) :
  Forall (λ b, (b < 0x80)%N) bs → utf8_decode errors bs = inl bs.
Proof.
  induction 1 as [|b bs Hb _ IH]; [done|].
  cbn [utf8_decode]. unfold sequence_length.
  apply N.ltb_lt in Hb. rewrite Hb. by rewrite IH.
Qed.

(** A line of ASCII bytes decodes to the same characters under either error
    mode, so it is logged as written, without the white space around it. *)
Theorem ascii_line_is_logged_as_written (bs : list byte) :
  Forall (λ b, (Byte.to_N b < 0x80)%N) bs →
  decode strict bs = inl (Byte.to_N <$> bs)
  ∧ decode ignore bs = inl (Byte.to_N <$> bs)
  ∧ line_text bs = strip (Byte.to_N <$> bs).
Proof.
  intros Hascii.
  assert (Hdec : ∀ errors, decode errors bs = inl (Byte.to_N <$> bs)).
  { intros errors. unfold decode. apply utf8_decode_ascii.
    by apply Forall_fmap. }
  split; [apply Hdec|]. split; [apply Hdec|].
  unfold line_text. by rewrite Hdec.
Qed.

Lemma ascii_line_is_logged_as_written_witness :
  decode strict (line "  login: ")
  = inl (Byte.to_N <$> line "  login: ")
  ∧ decode ignore (line "  login: ")
    = inl (Byte.to_N <$> line "  login: ")
  ∧ line_text (line "  login: ") = strip (Byte.to_N <$> line "  login: ").
Proof.
  apply ascii_line_is_logged_as_written.
  repeat constructor.
Defined.

Lemma emit_char_inv c r t :
  emit_char c r = inl t → ∃ t', r = inl t' ∧ t = c :: t'.
Proof. destruct r as [t'|e]; [|done]. intros [= <-]. eauto. Qed.

Lemma emit_char_agree c bs n t
    (IH : ∀ (bs : list N) t, (length bs ≤ n)%nat →
          utf8_decode strict bs = inl t → utf8_decode ignore bs = inl t) :
  (length bs ≤ n)%nat →
  emit_char c (utf8_decode strict bs) = inl t →
  emit_char c (utf8_decode ignore bs) = inl t.
Proof.
  intros Hn H. apply emit_char_inv in H as (t' & H & ->).
  by rewrite (IH bs t' Hn H).
Qed.

Lemma utf8_decode_strict_ignore_upto (n : nat) :
  ∀ (bs : list N) t, (length bs ≤ n)%nat →
    utf8_decode strict bs = inl t → utf8_decode ignore bs = inl t.
Proof.
  induction n as [|n IH]; intros bs t Hn H.
  - destruct bs; [done | simpl in Hn; lia].
  - destruct bs as [|b0 r0]; [done|].
    simpl in Hn. cbn [utf8_decode on_error] in *.
    destruct (sequence_length b0) as [[|[|k]]|]; try done;
      try (by apply (emit_char_agree _ _ n _ IH); [lia|]).
    all: destruct r0 as [|b1 r1]; [done|].
    all: destruct (negb (second_byte_ok b0 b1)); [done|].
    all: destruct (_ =? 2)%nat;
      [by apply (emit_char_agree _ _ n _ IH); [simpl in *; lia|]|].
    all: destruct r1 as [|b2 r2]; [done|].
    all: destruct (negb (is_continuation b2)); [done|].
    all: destruct (_ =? 3)%nat;
      [by apply (emit_char_agree _ _ n _ IH); [simpl in *; lia|]|].
    all: destruct r2 as [|b3 r3]; [done|].
    all: destruct (negb (is_continuation b3)); [done|].
    all: by apply (emit_char_agree _ _ n _ IH); [simpl in *; lia|].
Qed.

(** Decoding with [errors='ignore'] loses nothing of a well-formed line:
    whenever the strict decoder accepts the bytes, the worker logs exactly
    that text, stripped. *)
Theorem well_formed_line_is_logged_in_full (bs : list byte) (text : str) :
  decode strict bs = inl text →
  decode ignore bs = inl text ∧ line_text bs = strip text.
Proof.
  intros H.
  assert (decode ignore bs = inl text) as Hi
    by (by apply (utf8_decode_strict_ignore_upto (length (Byte.to_N <$> bs)))).
  split; [done|]. unfold line_text. by rewrite Hi.
Qed.

Lemma well_formed_line_is_logged_in_full_witness :
  decode ignore [xe2; x82; xac; x20; x35; x0a]
  = inl [8364; 32; 53; 10]%N
  ∧ line_text [xe2; x82; xac; x20; x35; x0a] = strip [8364; 32; 53; 10]%N.
Proof. apply well_formed_line_is_logged_in_full. reflexivity. Defined.

(** * Further properties of the window *)

Section WindowInvariants.

Variable unset_value : Z.

#[local] Arguments py : simpl never.

(** ** The parallel lists *)

Lemma fires_lt ts b : fires ts b = true → (b < length ts)%nat.
Proof.
  unfold fires. destruct (ts !! b) eqn:H; [|done].
  intros _. by eapply lookup_lt_Some.
Qed.

Lemma fires_app_None ts b : fires (ts ++ [None]) b = fires ts b.
Proof.
  unfold fires. destruct (decide (b < length ts)%nat) as [Hlt|Hge].
  - by rewrite lookup_app_l.
  - rewrite (lookup_ge_None_2 ts) by lia.
    destruct (decide (b = length ts)) as [->|Hne].
    + by rewrite list_lookup_middle.
    + rewrite lookup_ge_None_2; [done|]. rewrite length_app. simpl. lia.
Qed.

Lemma add_board_aligned self p r i :
  aligned self → aligned (add_board unset_value self p r i).
Proof.
  intros (H1 & H2 & H3 & H4 & H5 & H6 & H7 & H8).
  unfold aligned. simpl. rewrite !length_app. simpl.
  repeat split; try lia; try done.
  intros b Hb. rewrite fires_app_None in Hb.
  pose proof (fires_lt _ _ Hb).
  rewrite lookup_app_l by lia. by apply H8.
Qed.

Lemma add_boards_aligned ports : ∀ self,
  aligned self → aligned (add_boards unset_value self ports).
Proof.
  unfold add_boards.
  induction ports as [|p ports IH]; intros self H; [done|].
  simpl. by apply IH, add_board_aligned.
Qed.

Lemma append_log_length logs b m logs' :
  append_log logs b m = Some logs' → length logs' = length logs.
Proof.
  unfold append_log. destruct (logs !! b); [|done].
  intros [= <-]. apply length_insert.
Qed.

Lemma assign_Some {A} (l : list A) i x l' :
  assign l i x = Some l' → l' = <[i:=x]> l ∧ (i < length l)%nat.
Proof. unfold assign. case_decide; [|done]. by intros [= <-]. Qed.

Lemma fires_insert ts b b' t :
  (b < length ts)%nat →
  fires (<[b := Some t]> ts) b' = if decide (b = b') then active t else fires ts b'.
Proof.
  intros Hlt. unfold fires. case_decide as Hb.
  - subst. by rewrite list_lookup_insert_eq.
  - by rewrite list_lookup_insert_ne.
Qed.

Lemma handle_aligned self ev self' :
  aligned self → handle unset_value self ev = Some self' → aligned self'.
Proof.
  intros Hal H. pose proof Hal as (H1 & H2 & H3 & H4 & H5 & H6 & H7 & H8).
  destruct ev as [ports|[b m|b m|b|b]|b|b e|]; simpl in H.
  - injection H as <-. by apply add_boards_aligned.
  - unfold update_log in H.
    destruct (append_log _ _ _) as [logs|] eqn:Hl; [|done].
    injection H as <-. apply append_log_length in Hl.
    unfold aligned. simpl. by rewrite Hl.
  - unfold handle_error in H.
    destruct (append_log _ _ _) as [logs|] eqn:Hl; [|done].
    injection H as <-. apply append_log_length in Hl.
    unfold aligned. simpl. by rewrite Hl.
  - unfold handle_flashed in H.
    destruct (progress_bars self !! b); [|done]. simpl in H.
    destruct (append_log _ _ _) as [logs|] eqn:Hl; [|done].
    injection H as <-. apply append_log_length in Hl.
    unfold aligned. simpl. by rewrite Hl, length_insert.
  - unfold start_timers in H.
    destruct (assign (elapsed_timers self) _ _) as [ets|] eqn:He; [|done].
    destruct (assign (progress_timers self) _ _) as [pts|] eqn:Hp; [|done].
    destruct (assign (time_timers self) _ _) as [tts|] eqn:Ht; [|done].
    simpl in H. injection H as <-.
    apply assign_Some in He as [-> Hle], Hp as [-> Hlp], Ht as [-> Hlt].
    unfold aligned. simpl. rewrite !length_insert.
    repeat split; try done.
    intros b' Hb'. rewrite fires_insert in Hb' by done.
    case_decide as Hb.
    + subst. by rewrite list_lookup_insert_eq.
    + rewrite list_lookup_insert_ne by done. by apply H8.
  - destruct (fires _ _); [|by injection H as <-].
    unfold update_progress in H.
    destruct (progress_bars self !! b); [|done]. simpl in H.
    destruct (mjoin _); [|done]. simpl in H.
    destruct (workers self !! b); [|done]. simpl in H.
    destruct (value _ <? 100).
    + injection H as <-. unfold aligned. simpl. by rewrite length_insert.
    + destruct (append_log _ _ _) as [logs|] eqn:Hl; [|done].
      injection H as <-. apply append_log_length in Hl.
      unfold aligned. simpl. by rewrite Hl, !length_insert.
  - destruct (fires _ _); [|by injection H as <-].
    unfold update_time in H.
    destruct (mjoin _); [|done]. simpl in H.
    destruct (time_labels self !! b); [|done]. simpl in H.
    injection H as <-. unfold aligned. simpl. by rewrite length_insert.
  - injection H as <-. unfold aligned. simpl.
    rewrite length_fmap, H7. done.
Qed.

Lemma handle_all_aligned evs : ∀ self self',
  aligned self → handle_all unset_value self evs = Some self' → aligned self'.
Proof.
  induction evs as [|ev evs IH]; intros self self' Hal H; simpl in H.
  - by injection H as <-.
  - destruct (handle unset_value self ev) as [mid|] eqn:Hev; [|done].
    simpl in H. eapply IH; [|done]. by eapply handle_aligned.
Qed.

Lemma new_MainWindow_aligned : aligned new_MainWindow.
Proof. unfold aligned. simpl. repeat split; try done. Qed.

(** In every state the window reaches, its lists have one entry per board,
    [self.timers] is still empty, and every running time timer has a
    started elapsed timer to read. *)
Theorem window_lists_stay_parallel (evs : list event) (self : MainWindow) :
  handle_all unset_value new_MainWindow evs = Some self → aligned self.
Proof. apply handle_all_aligned, new_MainWindow_aligned. Qed.

(** ** When a slot raises *)

Lemma append_log_is_Some logs b m :
  is_Some (append_log logs b m) ↔ (b < length logs)%nat.
Proof.
  unfold append_log. rewrite <- lookup_lt_is_Some.
  destruct (logs !! b); simpl; split; intros [? ?]; by eauto.
Qed.

Lemma assign_is_Some {A} (l : list A) i x :
  is_Some (assign l i x) ↔ (i < length l)%nat.
Proof.
  unfold assign. case_decide; split; try done; try (by eauto).
Qed.

Lemma is_Some_bind_Some {A B} (x : option A) (f : A → B) :
  is_Some (y ← x; Some (f y)) ↔ is_Some x.
Proof. destruct x; simpl; split; intros [? ?]; by eauto. Qed.

Lemma slot_is_Some self s :
  aligned self →
  is_Some (handle unset_value self (signal_received s))
  ↔ (signal_board s < length (workers self))%nat.
Proof.
  intros (H1 & H2 & H3 & H4 & H5 & H6 & H7 & H8).
  destruct s as [b m|b m|b|b]; simpl.
  - unfold update_log. by rewrite is_Some_bind_Some, append_log_is_Some, H2.
  - unfold handle_error.
    by rewrite is_Some_bind_Some, append_log_is_Some, H2.
  - unfold handle_flashed. split.
    + intros [x Hx]. destruct (progress_bars self !! b) eqn:Hb; [|done].
      apply lookup_lt_Some in Hb. lia.
    + intros Hlt.
      destruct (lookup_lt_is_Some_2 (progress_bars self) b) as [bar ->]; [lia|].
      simpl.
      destruct (proj2 (append_log_is_Some (text_logs self) b
                         (py "Firmware flashing completed"))) as [logs ->];
        [lia|]. by eexists.
  - unfold start_timers. split.
    + intros [x Hx].
      destruct (assign (elapsed_timers self) _ _) eqn:He; [|done].
      apply assign_Some in He as [_ ?]. lia.
    + intros Hlt.
      destruct (proj2 (assign_is_Some (elapsed_timers self) b
                         (Some elapsed_timer_started))) as [? ->]; [lia|].
      destruct (proj2 (assign_is_Some (progress_timers self) b
                         (Some (timer_started 10000)))) as [? ->]; [lia|].
      destruct (proj2 (assign_is_Some (time_timers self) b
                         (Some (timer_started 1)))) as [? ->]; [lia|].
      by eexists.
Qed.

Lemma timeout_is_Some self ev :
  aligned self →
  (∃ b, ev = progress_timeout b) ∨ (∃ b e, ev = time_timeout b e) →
  is_Some (handle unset_value self ev).
Proof.
  intros (H1 & H2 & H3 & H4 & H5 & H6 & H7 & H8) [[b ->] | (b & e & ->)];
    simpl.
  - destruct (fires (progress_timers self) b) eqn:Hf; [|by eexists].
    pose proof (fires_lt _ _ Hf) as Hlt. unfold fires in Hf.
    unfold update_progress.
    destruct (lookup_lt_is_Some_2 (progress_bars self) b) as [bar ->]; [lia|].
    destruct (progress_timers self !! b) as [[t|]|]; try done.
    destruct (lookup_lt_is_Some_2 (workers self) b) as [w ->]; [lia|].
    simpl. destruct (value bar <? 100); [by eexists|].
    destruct (proj2 (append_log_is_Some (text_logs self) b
                (py "This board is flashed successfully"))) as [logs ->];
      [lia|]. by eexists.
  - destruct (fires (time_timers self) b) eqn:Hf; [|by eexists].
    pose proof (fires_lt _ _ Hf) as Hlt. unfold update_time.
    rewrite (H8 b Hf). simpl.
    destruct (lookup_lt_is_Some_2 (time_labels self) b) as [l ->]; [lia|].
    by eexists.
Qed.

(** In a state the window has reached, a slot raises exactly when a signal
    names a board that was never added: signals about known boards, timer
    ticks, clicks and closing are always handled. *)
Theorem slots_raise_only_for_unknown_boards (evs : list event)
    (self : MainWindow) (ev : event) :
  handle_all unset_value new_MainWindow evs = Some self →
  is_Some (handle unset_value self ev)
  ↔ match ev with
    | signal_received s => (signal_board s < length (workers self))%nat
    | _ => True
    end.
Proof.
  intros Hreach.
  assert (Hal : aligned self)
    by (by eapply handle_all_aligned; [apply new_MainWindow_aligned|]).
  destruct ev as [ports|s|b|b e|].
  - simpl. split; [done | by eexists].
  - by apply slot_is_Some.
  - split; [done|]. intros _. apply timeout_is_Some; eauto.
  - split; [done|]. intros _. apply timeout_is_Some; eauto.
  - simpl. split; [done | by eexists].
Qed.

(** ** Closing the window *)

Lemma ticking_closeEvent self b v :
  ticking (closeEvent self) b v = ticking self b v.
Proof.
  unfold ticking. simpl. rewrite list_lookup_fmap.
  destruct (progress_bars self !! b); [|done].
  destruct (progress_timers self !! b) as [[t|]|]; try done.
  by destruct (workers self !! b).
Qed.

(** Closing the window stops every worker but no timer: [self.timers], the
    only list of timers it walks, is empty in every state the window
    reaches, so a board whose progress timer was running keeps ticking. *)
Theorem closing_stops_workers_not_timers (evs : list event)
    (self : MainWindow) :
  handle_all unset_value new_MainWindow evs = Some self →
  ∃ self',
    handle unset_value self window_closed = Some self'
    ∧ Forall (λ w, running w = false) (workers self')
    ∧ timers self = []
    ∧ progress_timers self' = progress_timers self
    ∧ time_timers self' = time_timers self
    ∧ ∀ b v, ticking self' b v = ticking self b v.
Proof.
  intros Hreach.
  assert (Hal : aligned self)
    by (by eapply handle_all_aligned; [apply new_MainWindow_aligned|]).
  exists (closeEvent self). split; [done|]. split.
  - simpl. apply Forall_fmap, Forall_forall. by intros w _.
  - split; [apply Hal|]. split; [done|]. split; [done|].
    intros b v. apply ticking_closeEvent.
Qed.

(** ** After the bar is full *)


Lemma ticking_parts self b v :
  ticking self b v = true →
  ∃ bar t w log,
    progress_bars self !! b = Some bar
    ∧ progress_timers self !! b = Some (Some t)
    ∧ workers self !! b = Some w
    ∧ text_logs self !! b = Some log
    ∧ minimum bar = 0 ∧ maximum bar = 100 ∧ value bar = v
    ∧ active t = true.
Proof.
  unfold ticking.
  destruct (progress_bars self !! b) as [bar|]; [|done].
  destruct (progress_timers self !! b) as [[t|]|]; try done.
  destruct (workers self !! b) as [w|]; [|done].
  destruct (text_logs self !! b) as [log|]; [|done].
  intros H. repeat (apply andb_prop in H as [H ?]).
  exists bar, t, w, log. repeat split; try done; lia.
Qed.

Lemma tick_completes self b :
  ticking self b 100 = true →
  ∃ self' w log,
    handle unset_value self (progress_timeout b) = Some self'
    ∧ workers self !! b = Some w
    ∧ text_logs self !! b = Some log
    ∧ workers self' !! b = Some (stop w)
    ∧ text_logs self' !! b
      = Some (log ++ [py "This board is flashed successfully"])
    ∧ progress self' b = Some 100
    ∧ fires (progress_timers self') b = false.
Proof.
  intros Ht. destruct (ticking_shows self b 100 Ht) as [_ Hfires].
  destruct (ticking_parts self b 100 Ht)
    as (bar & t & w & log & Hbar & Htimer & Hw & Hlog & Hmin & Hmax & Hv & _).
  cbn [handle]. rewrite Hfires.
  unfold update_progress, append_log, progress, fires.
  rewrite Hbar, Htimer, Hw, Hlog.
  cbn [mbind option_bind mjoin option_join].
  destruct (value bar <? 100) eqn:Hlt; [lia|].
  rewrite setValue_in_range by lia.
  eexists _, w, log. split; [reflexivity|]. cbn.
  rewrite !list_lookup_insert_eq by (by eapply lookup_lt_Some). done.
Qed.

Lemma ticks_when_stopped self b n :
  fires (progress_timers self) b = false →
  handle_all unset_value self (replicate n (progress_timeout b)) = Some self.
Proof.
  intros Hf. induction n as [|n IH]; [done|].
  cbn [replicate handle_all handle]. by rewrite Hf.
Qed.

(** The tick that finds the bar at 100 stops the worker, writes the success
    line once and stops the timer for good: however many timeouts are
    delivered afterwards, the window stays exactly as it is. *)
Theorem completion_is_permanent (self : MainWindow) (b : nat) :
  ticking self b 100 = true →
  ∃ self' w log,
    handle unset_value self (progress_timeout b) = Some self'
    ∧ workers self !! b = Some w
    ∧ text_logs self !! b = Some log
    ∧ workers self' !! b = Some (stop w)
    ∧ text_logs self' !! b
      = Some (log ++ [py "This board is flashed successfully"])
    ∧ progress self' b = Some 100
    ∧ ∀ n, handle_all unset_value self' (replicate n (progress_timeout b))
           = Some self'.
Proof.
  intros Ht.
  destruct (tick_completes self b Ht)
    as (self' & w & log & H & Hw & Hlog & Hw' & Hlog' & Hp & Hf).
  exists self', w, log. repeat split; try done.
  intros n. by apply ticks_when_stopped.
Qed.

(** ** A marker or an error while the bar is moving *)

Lemma flashed_on_ticking self b v :
  ticking self b v = true →
  ∃ self' log,
    handle unset_value self (signal_received (flashed_signal b)) = Some self'
    ∧ text_logs self !! b = Some log
    ∧ ticking self' b 100 = true
    ∧ workers self' = workers self
    ∧ text_logs self' !! b
      = Some (log ++ [py "Firmware flashing completed"]).
Proof.
  intros Ht.
  destruct (ticking_parts self b v Ht)
    as (bar & t & w & log & Hbar & Htimer & Hw & Hlog & Hmin & Hmax & Hv & Ha).
  cbn [handle]. unfold handle_flashed, append_log. rewrite Hbar, Hlog.
  cbn [mbind option_bind]. rewrite setValue_in_range by lia.
  eexists _, log. split; [reflexivity|]. split; [done|].
  unfold ticking. cbn.
  rewrite !list_lookup_insert_eq by (by eapply lookup_lt_Some).
  rewrite Htimer, Hw. cbn. rewrite Hmin, Hmax, Ha. done.
Qed.


(** A marker fills the bar at once and leaves the worker running; it is the
    next tick of the progress timer that stops the worker, so the log of the
    board gets both completion lines, in this order. *)
Theorem marker_then_tick_stops_worker (self : MainWindow) (b : nat) (v : Z) :
  ticking self b v = true →
  ∃ s1 s2 w log,
    workers self !! b = Some w
    ∧ text_logs self !! b = Some log
    ∧ handle unset_value self (signal_received (flashed_signal b)) = Some s1
    ∧ progress s1 b = Some 100
    ∧ workers s1 !! b = Some w
    ∧ handle unset_value s1 (progress_timeout b) = Some s2
    ∧ workers s2 !! b = Some (stop w)
    ∧ text_logs s2 !! b
      = Some (log ++ [py "Firmware flashing completed";
                      py "This board is flashed successfully"]).
Proof.
  intros Ht.
  destruct (flashed_on_ticking self b v Ht)
    as (s1 & log & H1 & Hlog & Ht1 & Hw1 & Hlog1).
  destruct (tick_completes s1 b Ht1)
    as (s2 & w & log1 & H2 & Hw & Hl1 & Hw2 & Hlog2 & _).
  exists s1, s2, w, log. rewrite Hw1 in Hw.
  assert (Some log1 = Some (log ++ [py "Firmware flashing completed"]))
    as [= ->] by (rewrite <- Hl1; exact Hlog1).
  rewrite <- app_assoc in Hlog2.
  repeat split; try done.
  - by apply ticking_shows in Ht1 as [? _].
  - by rewrite Hw1.
Qed.


(** ** One board at a time *)

(** A signal or a timer tick about one board leaves every other board as it
    is: its worker, bar, log, label and timers. *)
Theorem boards_do_not_interfere (self self' : MainWindow) (ev : event)
    (b b' : nat) :
  event_board ev = Some b →
  b' ≠ b →
  handle unset_value self ev = Some self' →
  workers self' !! b' = workers self !! b'
  ∧ progress_bars self' !! b' = progress_bars self !! b'
  ∧ text_logs self' !! b' = text_logs self !! b'
  ∧ time_labels self' !! b' = time_labels self !! b'
  ∧ elapsed_timers self' !! b' = elapsed_timers self !! b'
  ∧ progress_timers self' !! b' = progress_timers self !! b'
  ∧ time_timers self' !! b' = time_timers self !! b'.
Proof.
  intros Hb Hne H.
  assert (Hlog : ∀ logs m logs', append_log logs b m = Some logs' →
                                 logs' !! b' = logs !! b').
  { intros logs m logs'. unfold append_log.
    destruct (logs !! b); [|done]. intros [= <-].
    by apply list_lookup_insert_ne. }
  assert (Hassign : ∀ A (l : list A) x l', assign l b x = Some l' →
                                           l' !! b' = l !! b').
  { intros A l x l' [-> _]%assign_Some. by apply list_lookup_insert_ne. }
  destruct ev as [ports|[c m|c m|c|c]|c|c e|]; simpl in Hb; try done;
    injection Hb as ->; simpl in H.
  - unfold update_log in H.
    destruct (append_log _ _ _) eqn:Hl; [|done]. injection H as <-.
    simpl. repeat split; try done. by eapply Hlog.
  - unfold handle_error in H.
    destruct (append_log _ _ _) eqn:Hl; [|done]. injection H as <-.
    simpl. repeat split; try done. by eapply Hlog.
  - unfold handle_flashed in H.
    destruct (progress_bars self !! b); [|done]. simpl in H.
    destruct (append_log _ _ _) eqn:Hl; [|done]. injection H as <-.
    simpl. repeat split; try done.
    + by apply list_lookup_insert_ne.
    + by eapply Hlog.
  - unfold start_timers in H.
    destruct (assign (elapsed_timers self) _ _) eqn:He; [|done].
    destruct (assign (progress_timers self) _ _) eqn:Hp; [|done].
    destruct (assign (time_timers self) _ _) eqn:Ht; [|done].
    simpl in H. injection H as <-. simpl.
    repeat split; try done; by eapply Hassign.
  - destruct (fires _ _); [|by injection H as <-].
    unfold update_progress in H.
    destruct (progress_bars self !! b); [|done]. simpl in H.
    destruct (mjoin _); [|done]. simpl in H.
    destruct (workers self !! b); [|done]. simpl in H.
    destruct (value _ <? 100).
    + injection H as <-. simpl. repeat split; try done.
      by apply list_lookup_insert_ne.
    + destruct (append_log _ _ _) eqn:Hl; [|done]. injection H as <-.
      simpl. repeat split; try done;
        try (by apply list_lookup_insert_ne). by eapply Hlog.
  - destruct (fires _ _); [|by injection H as <-].
    unfold update_time in H.
    destruct (mjoin _); [|done]. simpl in H.
    destruct (time_labels self !! b); [|done]. simpl in H.
    injection H as <-. simpl. repeat split; try done.
    by apply list_lookup_insert_ne.
Qed.

(** ** From the worker's signals to the board's log *)

Lemma signal_logged self s :
  aligned self →
  (signal_board s < length (workers self))%nat →
  ∃ self' log,
    text_logs self !! signal_board s = Some log
    ∧ handle unset_value self (signal_received s) = Some self'
    ∧ text_logs self' !! signal_board s = Some (log ++ entry_of s)
    ∧ length (workers self') = length (workers self).
Proof.
  intros Hal Hlt. pose proof Hal as (H1 & H2 & H3 & H4 & H5 & H6 & _).
  destruct (lookup_lt_is_Some_2 (text_logs self) (signal_board s))
    as [log Hlog]; [lia|].
  destruct (proj2 (slot_is_Some self s Hal) Hlt) as [self' H].
  exists self', log. split; [done|]. split; [done|].
  assert (Hins : (<[signal_board s := log ++ entry_of s]> (text_logs self))
                 !! signal_board s = Some (log ++ entry_of s))
    by (apply list_lookup_insert_eq; lia).
  destruct s as [b m|b m|b|b]; simpl in *.
  - unfold update_log, append_log in H. rewrite Hlog in H.
    by injection H as <-.
  - unfold handle_error, append_log in H. rewrite Hlog in H.
    by injection H as <-.
  - unfold handle_flashed, append_log in H.
    destruct (progress_bars self !! b); [|done]. rewrite Hlog in H.
    by injection H as <-.
  - unfold start_timers in H.
    destruct (assign (elapsed_timers self) _ _); [|done].
    destruct (assign (progress_timers self) _ _); [|done].
    destruct (assign (time_timers self) _ _); [|done].
    simpl in H. injection H as <-. simpl. by rewrite app_nil_r.
Qed.

Lemma signals_logged sigs b : ∀ self,
  aligned self →
  (b < length (workers self))%nat →
  Forall (λ s, signal_board s = b) sigs →
  ∃ self' log,
    text_logs self !! b = Some log
    ∧ handle_all unset_value self (signal_received <$> sigs) = Some self'
    ∧ text_logs self' !! b = Some (log ++ concat (entry_of <$> sigs)).
Proof.
  induction sigs as [|s sigs IH]; intros self Hal Hlt Hall.
  - destruct (lookup_lt_is_Some_2 (text_logs self) b) as [log Hlog].
    { destruct Hal as (_ & -> & _). done. }
    exists self, log. simpl. by rewrite app_nil_r.
  - apply Forall_cons in Hall as [<- Hall].
    destruct (signal_logged self s Hal Hlt) as (s1 & log & Hlog & H1 & Hl1 & Hn).
    destruct (IH s1) as (s2 & log1 & Hlog1 & H2 & Hl2);
      [by eapply handle_aligned | lia | done |].
    exists s2, log. split; [done|].
    cbn [fmap list_fmap handle_all]. rewrite H1. cbn [mbind option_bind].
    split; [done|].
    assert (Some log1 = Some (log ++ entry_of s)) as [= ->]
      by (rewrite <- Hlog1; exact Hl1).
    cbn [concat]. by rewrite app_assoc.
Qed.

(** Whatever signals about a known board reach the window, they are all
    handled, and the log of the board grows by their entries, in order: a
    logged line as it is, an error behind "Error: ", a marker as "Firmware
    flashing completed", nothing for the first transmission. *)
Theorem window_log_follows_signals (evs : list event) (self : MainWindow)
    (b : nat) (sigs : list signal) :
  handle_all unset_value new_MainWindow evs = Some self →
  (b < length (workers self))%nat →
  Forall (λ s, signal_board s = b) sigs →
  ∃ self' log,
    text_logs self !! b = Some log
    ∧ handle_all unset_value self (signal_received <$> sigs) = Some self'
    ∧ text_logs self' !! b = Some (log ++ concat (entry_of <$> sigs)).
Proof.
  intros Hreach. apply signals_logged.
  by eapply handle_all_aligned; [apply new_MainWindow_aligned|].
Qed.

Lemma loop_entries ts : ∀ self,
  running self = true →
  concat (entry_of <$> sigs_of (loop self ts))
  = concat (line_entries <$> (line_text <$> lines_read ts)).
Proof.
  induction ts as [|t ts IH]; intros self Hrun.
  - simpl. by rewrite Hrun.
  - destruct t.
    + cbn [loop]. rewrite Hrun. cbn [negb]. by rewrite loop_stopped.
    + cbn [loop]. by rewrite Hrun.
    + cbn [loop]. rewrite Hrun. cbn [negb lines_read]. by apply IH.
    + cbn [loop]. by rewrite Hrun.
    + rewrite loop_readline by done.
      rewrite fmap_app, concat_app. cbn [lines_read fmap list_fmap concat].
      rewrite (IH (set_first_transmission_received self)) by done.
      f_equal. unfold line_signals, line_entries.
      by destruct (first_transmission_received self),
                  (contains marker (line_text bs)).
Qed.

Lemma run_signals self dev :
  running self = true →
  open_raises dev = None →
  signals (run self dev)
  = sigs_of (loop self (turns dev))
    ++ match first_exception (turns dev) with
       | Some e => [serial_port_error self e]
       | None => []
       end.
Proof.
  intros Hrun Hopen.
  pose proof (loop_exit_kind (turns dev) self Hrun) as Hexit.
  unfold run. rewrite Hopen.
  destruct (loop self (turns dev)) as [[x w] sigs]. simpl in *. subst x.
  destruct (first_exception (turns dev)); simpl; [done|].
  destruct (existsb ends_loop (turns dev)); simpl; by rewrite app_nil_r.
Qed.

(** A whole session, worker to window: when the signals of a worker on an
    opened port are delivered to the window, the log of its board shows
    every line read, in order, stripped, each marker line followed by
    "Firmware flashing completed", and at the end the serial error if the
    port failed. *)
Theorem session_log_end_to_end (evs : list event) (self : MainWindow)
    (w : Worker) (dev : device) :
  handle_all unset_value new_MainWindow evs = Some self →
  (board_id w < length (workers self))%nat →
  running w = true →
  open_raises dev = None →
  ∃ self' log,
    text_logs self !! board_id w = Some log
    ∧ handle_all unset_value self (signal_received <$> signals (run w dev))
      = Some self'
    ∧ text_logs self' !! board_id w
      = Some (log
              ++ concat (line_entries <$> (line_text <$> lines_read (turns dev)))
              ++ match first_exception (turns dev) with
                 | Some e => [py "Error: " ++ py "Serial port error: " ++ e]
                 | None => []
                 end).
Proof.
  intros Hreach Hlt Hrun Hopen.
  assert (Hal : aligned self)
    by (by eapply handle_all_aligned; [apply new_MainWindow_aligned|]).
  assert (Hall : Forall (λ s, signal_board s = board_id w)
                        (signals (run w dev))).
  { rewrite run_signals by done. apply Forall_app. split; [apply loop_board|].
    destruct (first_exception (turns dev)); by repeat constructor. }
  destruct (signals_logged _ _ self Hal Hlt Hall) as (self' & log & Hlog & H & Hl).
  exists self', log. split; [done|]. split; [done|].
  refine (eq_trans Hl _). do 2 f_equal.
  rewrite run_signals, fmap_app, concat_app, loop_entries by done.
  f_equal. by destruct (first_exception (turns dev)).
Qed.

End WindowInvariants.

(** ** The further statements tried on a bench session *)

Lemma window_lists_stay_parallel_witness :
  ∃ self,
    handle_all 0 new_MainWindow (bench_events ++ later_events) = Some self
    ∧ aligned self.
Proof.
  eexists. split; [vm_compute; reflexivity|].
  apply (window_lists_stay_parallel 0 (bench_events ++ later_events)).
  vm_compute; reflexivity.
Defined.

Lemma slots_raise_only_for_unknown_boards_witness :
  ∃ self,
    handle_all 0 new_MainWindow bench_events = Some self
    ∧ (is_Some (handle 0 self (signal_received (log_signal 5 [])))
       ↔ (5 < length (workers self))%nat).
Proof.
  eexists. split; [vm_compute; reflexivity|].
  apply (slots_raise_only_for_unknown_boards 0 bench_events _
           (signal_received (log_signal 5 []))).
  vm_compute; reflexivity.
Defined.

Lemma closing_stops_workers_not_timers_witness :
  ∃ self,
    handle_all 0 new_MainWindow bench_events = Some self
    ∧ ∃ self',
        handle 0 self window_closed = Some self'
        ∧ Forall (λ w, running w = false) (workers self')
        ∧ timers self = []
        ∧ progress_timers self' = progress_timers self
        ∧ time_timers self' = time_timers self
        ∧ ∀ b v, ticking self' b v = ticking self b v.
Proof.
  eexists. split; [vm_compute; reflexivity|].
  apply (closing_stops_workers_not_timers 0 bench_events).
  vm_compute; reflexivity.
Defined.

Lemma completion_is_permanent_witness :
  ∃ self,
    handle_all 0 new_MainWindow
      (one_board ++ [signal_received (flashed_signal 0)]) = Some self
    ∧ ∃ self' w log,
        handle 0 self (progress_timeout 0) = Some self'
        ∧ workers self !! 0%nat = Some w
        ∧ text_logs self !! 0%nat = Some log
        ∧ workers self' !! 0%nat = Some (stop w)
        ∧ text_logs self' !! 0%nat
          = Some (log ++ [py "This board is flashed successfully"])
        ∧ progress self' 0 = Some 100
        ∧ ∀ n, handle_all 0 self' (replicate n (progress_timeout 0))
               = Some self'.
Proof.
  eexists. split; [vm_compute; reflexivity|].
  apply (completion_is_permanent 0). vm_compute; reflexivity.
Defined.

Lemma marker_then_tick_stops_worker_witness :
  ∃ self,
    handle_all 0 new_MainWindow bench_events = Some self
    ∧ ∃ s1 s2 w log,
        workers self !! 0%nat = Some w
        ∧ text_logs self !! 0%nat = Some log
        ∧ handle 0 self (signal_received (flashed_signal 0)) = Some s1
        ∧ progress s1 0 = Some 100
        ∧ workers s1 !! 0%nat = Some w
        ∧ handle 0 s1 (progress_timeout 0) = Some s2
        ∧ workers s2 !! 0%nat = Some (stop w)
        ∧ text_logs s2 !! 0%nat
          = Some (log ++ [py "Firmware flashing completed";
                          py "This board is flashed successfully"]).
Proof.
  eexists. split; [vm_compute; reflexivity|].
  apply (marker_then_tick_stops_worker 0 _ 0%nat 2). vm_compute; reflexivity.
Defined.


Lemma boards_do_not_interfere_witness :
  ∃ self self',
    handle_all 0 new_MainWindow bench_events = Some self
    ∧ handle 0 self (signal_received (flashed_signal 0)) = Some self'
    ∧ workers self' !! 1%nat = workers self !! 1%nat
    ∧ progress_bars self' !! 1%nat = progress_bars self !! 1%nat
    ∧ text_logs self' !! 1%nat = text_logs self !! 1%nat
    ∧ time_labels self' !! 1%nat = time_labels self !! 1%nat
    ∧ elapsed_timers self' !! 1%nat = elapsed_timers self !! 1%nat
    ∧ progress_timers self' !! 1%nat = progress_timers self !! 1%nat
    ∧ time_timers self' !! 1%nat = time_timers self !! 1%nat.
Proof.
  eexists _, _. split; [vm_compute; reflexivity|].
  split; [vm_compute; reflexivity|].
  apply (boards_do_not_interfere 0 _ _ (signal_received (flashed_signal 0))
           0%nat 1%nat);
    [reflexivity | lia | vm_compute; reflexivity].
Defined.

Lemma window_log_follows_signals_witness :
  ∃ self,
    handle_all 0 new_MainWindow bench_events = Some self
    ∧ ∃ self' log,
        text_logs self !! 1%nat = Some log
        ∧ handle_all 0 self
            (signal_received
             <$> [first_transmission_signal 1; log_signal 1 (py "DRAM: 2 GiB");
                  error_signal 1 (py "Serial port error: gone")])
          = Some self'
        ∧ text_logs self' !! 1%nat
          = Some (log
                  ++ concat (entry_of
                             <$> [first_transmission_signal 1;
                                  log_signal 1 (py "DRAM: 2 GiB");
                                  error_signal 1
                                    (py "Serial port error: gone")])).
Proof.
  eexists. split; [vm_compute; reflexivity|].
  apply (window_log_follows_signals 0 bench_events);
    [vm_compute; reflexivity | vm_compute; lia | repeat constructor].
Defined.

Lemma session_log_end_to_end_witness :
  ∃ self,
    handle_all 0 new_MainWindow [add_button_clicked ["COM3"%string]]
    = Some self
    ∧ ∃ self' log,
        text_logs self !! board_id board0 = Some log
        ∧ handle_all 0 self (signal_received <$> signals (run board0 unplugged))
          = Some self'
        ∧ text_logs self' !! board_id board0
          = Some (log
                  ++ concat (line_entries
                             <$> (line_text <$> lines_read (turns unplugged)))
                  ++ match first_exception (turns unplugged) with
                     | Some e => [py "Error: " ++ py "Serial port error: " ++ e]
                     | None => []
                     end).
Proof.
  eexists. split; [vm_compute; reflexivity|].
  apply (session_log_end_to_end 0 [add_button_clicked ["COM3"%string]]);
    [vm_compute; reflexivity | vm_compute; lia | reflexivity | reflexivity].
Defined.

(** * Further properties of registration and timers *)

Section Registration.

Variable unset_value : Z.

Lemma add_boards_extends ports : ∀ self,
  ∃ ws bars logs labels ets pts tts,
    workers (add_boards unset_value self ports) = workers self ++ ws
    ∧ progress_bars (add_boards unset_value self ports)
      = progress_bars self ++ bars
    ∧ text_logs (add_boards unset_value self ports) = text_logs self ++ logs
    ∧ time_labels (add_boards unset_value self ports)
      = time_labels self ++ labels
    ∧ elapsed_timers (add_boards unset_value self ports)
      = elapsed_timers self ++ ets
    ∧ progress_timers (add_boards unset_value self ports)
      = progress_timers self ++ pts
    ∧ time_timers (add_boards unset_value self ports)
      = time_timers self ++ tts
    ∧ Forall (λ t, t = None) pts.
Proof.
  unfold add_boards.
  induction ports as [|p ports IH]; intros self.
  - exists [], [], [], [], [], [], []. simpl. by rewrite !app_nil_r.
  - simpl.
    destruct (IH (add_board unset_value self p 115200 (length (workers self))))
      as (ws & bars & logs & labels & ets & pts & tts
          & -> & -> & -> & -> & -> & -> & -> & Hpts).
    simpl. rewrite <- !app_assoc. eexists _, _, _, _, _, _, _.
    repeat split; try done. simpl. by constructor.
Qed.

(** Adding boards disturbs no board already there: its worker, bar, log,
    label and timers are what they were. *)
Theorem adding_boards_keeps_existing (evs : list event) (self : MainWindow)
    (ports : list string) (b : nat) :
  handle_all unset_value new_MainWindow evs = Some self →
  (b < length (workers self))%nat →
  workers (add_boards unset_value self ports) !! b = workers self !! b
  ∧ progress_bars (add_boards unset_value self ports) !! b
    = progress_bars self !! b
  ∧ text_logs (add_boards unset_value self ports) !! b = text_logs self !! b
  ∧ time_labels (add_boards unset_value self ports) !! b
    = time_labels self !! b
  ∧ elapsed_timers (add_boards unset_value self ports) !! b
    = elapsed_timers self !! b
  ∧ progress_timers (add_boards unset_value self ports) !! b
    = progress_timers self !! b
  ∧ time_timers (add_boards unset_value self ports) !! b
    = time_timers self !! b.
Proof.
  intros Hreach Hlt.
  assert (Hal : aligned self)
    by (by eapply handle_all_aligned; [apply new_MainWindow_aligned|]).
  destruct Hal as (H1 & H2 & H3 & H4 & H5 & H6 & _).
  destruct (add_boards_extends ports self)
    as (ws & bars & logs & labels & ets & pts & tts
        & -> & -> & -> & -> & -> & -> & -> & _).
  repeat split; apply lookup_app_l; lia.
Qed.

Lemma fires_app_Nones ts pts b :
  Forall (λ t, t = None) pts → fires (ts ++ pts) b = fires ts b.
Proof.
  intros Hpts. unfold fires.
  destruct (decide (b < length ts)%nat) as [Hlt|Hge].
  - by rewrite lookup_app_l.
  - rewrite (lookup_ge_None_2 ts) by lia. rewrite lookup_app_r by lia.
    destruct (pts !! (b - length ts)%nat) as [t|] eqn:Ht; [|done].
    by rewrite (Forall_lookup_1 _ _ _ _ Hpts Ht).
Qed.

Lemma fires_insert_stop ts b c t :
  ts !! c = Some (Some t) →
  fires (<[c := Some (timer_stop t)]> ts) b = true → fires ts b = true.
Proof.
  intros Hc. unfold fires. destruct (decide (c = b)) as [->|Hne].
  - rewrite list_lookup_insert_eq by (by eapply lookup_lt_Some). done.
  - by rewrite list_lookup_insert_ne.
Qed.

Lemma handle_starts_timer self ev self' b :
  handle unset_value self ev = Some self' →
  fires (progress_timers self') b = true →
  fires (progress_timers self) b = true
  ∨ ev = signal_received (first_transmission_signal b).
Proof.
  intros H Hf. destruct ev as [ports|[c m|c m|c|c]|c|c e|]; simpl in H.
  - left. injection H as <-.
    destruct (add_boards_extends ports self)
      as (ws & bars & logs & labels & ets & pts & tts
          & _ & _ & _ & _ & _ & Hp & _ & Hpts).
    rewrite Hp in Hf. by rewrite fires_app_Nones in Hf.
  - left. unfold update_log in H. by simplify_option_eq.
  - left. unfold handle_error in H. by simplify_option_eq.
  - left. unfold handle_flashed in H. by simplify_option_eq.
  - unfold start_timers in H.
    destruct (assign (elapsed_timers self) _ _); [|done].
    destruct (assign (progress_timers self) _ _) eqn:Hp; [|done].
    destruct (assign (time_timers self) _ _); [|done].
    simpl in H. injection H as <-. simpl in Hf.
    apply assign_Some in Hp as [-> Hlt].
    destruct (decide (c = b)) as [->|Hne]; [by right|left].
    unfold fires in *. by rewrite list_lookup_insert_ne in Hf.
  - left. destruct (fires (progress_timers self) c) eqn:Hc;
      [|by injection H as <-].
    unfold update_progress in H.
    destruct (progress_bars self !! c); [|done]. simpl in H.
    destruct (progress_timers self !! c) as [[t|]|] eqn:Ht; try done.
    simpl in H. destruct (workers self !! c); [|done]. simpl in H.
    destruct (value _ <? 100).
    + by injection H as <-.
    + destruct (append_log _ _ _); [|done]. injection H as <-.
      simpl in Hf. by eapply fires_insert_stop.
  - left. destruct (fires _ _); [|by injection H as <-].
    unfold update_time in H. by simplify_option_eq.
  - left. by injection H as <-.
Qed.

Lemma handle_all_starts_timer evs b : ∀ self self',
  handle_all unset_value self evs = Some self' →
  fires (progress_timers self') b = true →
  fires (progress_timers self) b = true
  ∨ signal_received (first_transmission_signal b) ∈ evs.
Proof.
  induction evs as [|ev evs IH]; intros self self' H Hf; simpl in H.
  - injection H as <-. by left.
  - destruct (handle unset_value self ev) as [mid|] eqn:Hev; [|done].
    simpl in H. destruct (IH mid self' H Hf) as [Hmid | Hin].
    + destruct (handle_starts_timer self ev mid b Hev Hmid) as [? | ->];
        [by left | right; by left].
    + right. by right.
Qed.

(** The progress timer of a board runs only after the board's first
    transmission was signalled: before that no tick is delivered for it. *)
Theorem progress_timer_needs_first_transmission (evs : list event)
    (self : MainWindow) (b : nat) :
  handle_all unset_value new_MainWindow evs = Some self →
  fires (progress_timers self) b = true →
  signal_received (first_transmission_signal b) ∈ evs.
Proof.
  intros H Hf.
  by destruct (handle_all_starts_timer evs b new_MainWindow self H Hf).
Qed.

End Registration.

Lemma adding_boards_keeps_existing_witness :
  ∃ self,
    handle_all 0 new_MainWindow bench_events = Some self
    ∧ workers (add_boards 0 self ["COM7"%string]) !! 1%nat
      = workers self !! 1%nat
    ∧ progress_bars (add_boards 0 self ["COM7"%string]) !! 1%nat
      = progress_bars self !! 1%nat
    ∧ text_logs (add_boards 0 self ["COM7"%string]) !! 1%nat
      = text_logs self !! 1%nat
    ∧ time_labels (add_boards 0 self ["COM7"%string]) !! 1%nat
      = time_labels self !! 1%nat
    ∧ elapsed_timers (add_boards 0 self ["COM7"%string]) !! 1%nat
      = elapsed_timers self !! 1%nat
    ∧ progress_timers (add_boards 0 self ["COM7"%string]) !! 1%nat
      = progress_timers self !! 1%nat
    ∧ time_timers (add_boards 0 self ["COM7"%string]) !! 1%nat
      = time_timers self !! 1%nat.
Proof.
  eexists. split; [vm_compute; reflexivity|].
  apply (adding_boards_keeps_existing 0 bench_events);
    [vm_compute; reflexivity | vm_compute; lia].
Defined.

Lemma progress_timer_needs_first_transmission_witness :
  signal_received (first_transmission_signal 0) ∈ bench_events.
Proof.
  eapply (progress_timer_needs_first_transmission 0 bench_events);
    vm_compute; reflexivity.
Defined.

(** * Progress from the unset bar *)

Section FromUnset.

Variable unset_value : Z.




End FromUnset.




(** * Who stops a worker, in full *)

(** C10, refuted as stated: closing the window stops a running worker
    whose bar shows 1, which is not the timeout path; and a line the port
    prints after a marker line is not logged once the worker was stopped in
    between. *)
Lemma closing_stops_a_running_worker :
  (∃ self,
     handle_all qt_unset_value new_MainWindow bench_events = Some self
     ∧ progress self 0 = Some 1
     ∧ ¬ only_timeout_stops self window_closed)
  ∧ logged (signals (run board0 stopped_after_banner))
    ≠ line_text <$> [line "Span Gateway 2.0.0 span-gateway ttymxc0";
                     line "span-gateway login:"].
Proof.
  split.
  - eexists. split; [vm_compute; reflexivity|]. split; [reflexivity|].
    intros H. unfold only_timeout_stops in H.
    edestruct H with (i := 0%nat) as [Hev _];
      [reflexivity | reflexivity | reflexivity | reflexivity | reflexivity |].
    discriminate Hev.
  - vm_compute. discriminate.
Qed.

Section WhoStops.

Variable unset_value : Z.

(** C10, amended: a marker match does not by itself stop the read loop.
    The worker logs every line it reads, marker lines included, until a stop
    request or a port error ends the loop, and nothing after that; fed lines
    only, it stays in the loop, running.  [handle_flashed] leaves the
    workers as they are, but it fills the bar, so the next progress tick of
    the board stops its worker.  A running worker is turned into a stopped
    one only by a progress tick that finds its bar at 100 or by closing the
    window, which stops them all. *)
Theorem marker_stops_the_worker_at_the_next_tick (w : Worker) :
  running w = true →
  (∀ dev, open_raises dev = None →
          logged (signals (run w dev)) = line_text <$> lines_read (turns dev))
  ∧ (∀ lines,
       logged (signals (run w (feed lines))) = line_text <$> lines
       ∧ outcome (run w (feed lines)) = in_loop
       ∧ running (worker_after (run w (feed lines))) = true)
  ∧ (∀ self b self',
       handle_flashed self b = Some self' → workers self' = workers self)
  ∧ (∀ self b v,
       ticking self b v = true →
       ∃ s1 s2 w1,
         workers self !! b = Some w1
         ∧ handle unset_value self (signal_received (flashed_signal b))
           = Some s1
         ∧ workers s1 !! b = Some w1
         ∧ progress s1 b = Some 100
         ∧ handle unset_value s1 (progress_timeout b) = Some s2
         ∧ workers s2 !! b = Some (stop w1))
  ∧ (∀ self ev self' i w1 w2,
       handle unset_value self ev = Some self' →
       workers self !! i = Some w1 → running w1 = true →
       workers self' !! i = Some w2 → running w2 = false →
       ev = window_closed
       ∨ (ev = progress_timeout i
          ∧ ∃ p, progress self i = Some p ∧ 100 ≤ p))
  ∧ (∀ self,
       ∃ self',
         handle unset_value self window_closed = Some self'
         ∧ Forall (λ w', running w' = false) (workers self')).
Proof.
  intros Hrun. split; [|split; [|split; [|split; [|split]]]].
  - intros dev Hopen. by apply run_logged.
  - intros lines.
    destruct (loop_feed lines w Hrun) as (w' & sigs & Hl & Hw).
    split; [|unfold run; simpl; by rewrite Hl].
    rewrite run_logged by done. simpl. by rewrite lines_read_feed.
  - intros self b self' H. unfold handle_flashed in H. by simplify_option_eq.
  - intros self b v Ht.
    destruct (flashed_on_ticking unset_value self b v Ht)
      as (s1 & log & H1 & Hlog & Ht1 & Hw1 & Hlog1).
    destruct (tick_completes unset_value s1 b Ht1)
      as (s2 & w1 & log1 & H2 & Hw & _ & Hw2 & _).
    exists s1, s2, w1. rewrite Hw1 in Hw.
    repeat split; try done.
    + by rewrite Hw1.
    + by apply ticking_shows in Ht1 as [? _].
  - intros self ev self' i w1 w2 H Hw1 Hr1 Hw2 Hr2.
    destruct (handle_workers unset_value self ev self' H)
      as [(more & Hmore & _) | [(b & w' & p & -> & Hw & Hst & Hp) | [-> _]]];
      [| |by left].
    + rewrite Hmore, (lookup_app_l_Some _ _ _ _ Hw1) in Hw2. congruence.
    + destruct (decide (b = i)) as [-> | Hne]; [right; eauto|].
      rewrite Hst, list_lookup_insert_ne in Hw2 by done. congruence.
  - intros self. exists (closeEvent self). split; [done|].
    simpl. apply Forall_fmap, Forall_forall. by intros w' _.
Qed.

End WhoStops.

Lemma marker_stops_the_worker_at_the_next_tick_witness :
  logged (signals (run board0 stopped_after_banner))
  = line_text <$> lines_read (turns stopped_after_banner)
  ∧ (logged (signals (run board0 two_banners))
     = line_text <$> [line "Starting kernel ...";
                      line "Span Gateway 2.0.0 span-gateway ttymxc0";
                      line "span-gateway login:";
                      line "Span Gateway 2.0.0 span-gateway ttymxc0"]
     ∧ outcome (run board0 two_banners) = in_loop
     ∧ running (worker_after (run board0 two_banners)) = true).
Proof.
  pose proof (marker_stops_the_worker_at_the_next_tick qt_unset_value board0
                eq_refl) as (Hlogged & Hfeed & _).
  split.
  - exact (Hlogged stopped_after_banner eq_refl).
  - exact (Hfeed [line "Starting kernel ...";
                  line "Span Gateway 2.0.0 span-gateway ttymxc0";
                  line "span-gateway login:";
                  line "Span Gateway 2.0.0 span-gateway ttymxc0"]).
Defined.
